(** * openapi-to-wxrequest: the generator, embedded and verified

    A shallow embedding of [openapi-to-wxrequest.js]: the name
    normalizer, the schema resolver, the type inferencer, the derivation
    of method names, the synthesis of one client method per operation and
    the assembly of the module.  Reading and parsing the input file,
    writing the output file and the command line are not part of it: the
    embedding starts from the parsed document.

    Modelling conventions.
    - A JavaScript string is a [string]: a sequence of 8-bit characters.
      The regular expressions of the source have no [u] flag and work
      character by character; case mapping ([toUpperCase], [toLowerCase])
      is the ASCII one and leaves every other character alone, which is
      what the source does on ASCII text: the properties that depend on
      the case of a character are stated for ASCII text.
    - Property access reads the own properties of a JSON value.  The
      source reads inherited members too; a property that looks up a
      name taken from the document or from the caller excludes the names
      that every object inherits ([object_prototype_names]).
    - A regular expression is embedded as the scanner it denotes, written
      next to the expression it stands for.
    - A function that may throw, or whose recursion is not bounded by its
      argument, returns an [outcome]; [console.warn] appends to its log.
    - The generator emits text.  The text is kept character for
      character; what the emitted method does when it is called is given
      by a small statement language whose rendering is proved to be that
      text.
    - Definitions keep the names of the source functions. *)

From Stdlib Require Import ZArith Lia Ascii String List Bool DecimalString.
From stdpp Require Import base strings list gmap.

Set Warnings "-register-all".

Local Open Scope char_scope.
Local Open Scope string_scope.
Local Open Scope list_scope.

(** ** Characters *)

Module Char.

Definition code (c : ascii) : N := N_of_ascii c.

Definition between (lo hi c : ascii) : bool :=
  ((code lo <=? code c) && (code c <=? code hi))%N.

(** [[a-z]], [[A-Z]], [[0-9]] (the class [\d]). *)
Definition is_lower : ascii → bool := between "a" "z".
Definition is_upper : ascii → bool := between "A" "Z".
Definition is_digit : ascii → bool := between "0" "9".

(** [[a-zA-Z0-9]] *)
Definition is_alnum (c : ascii) : bool :=
  is_lower c || is_upper c || is_digit c.

(** [[a-zA-Z0-9_$]] *)
Definition is_word (c : ascii) : bool :=
  is_alnum c || Ascii.eqb c "_" || Ascii.eqb c "$".

(** [[_-]] *)
Definition is_sep (c : ascii) : bool :=
  Ascii.eqb c "_" || Ascii.eqb c "-".

(** A letter, an underscore or a dollar sign: what an identifier may
    start with. *)
Definition is_ident_start (c : ascii) : bool :=
  is_lower c || is_upper c || Ascii.eqb c "_" || Ascii.eqb c "$".

(** Case mapping on the ASCII letters. *)
Definition toUpperCase (c : ascii) : ascii :=
  if is_lower c then ascii_of_N (code c - 32) else c.

Definition toLowerCase (c : ascii) : ascii :=
  if is_upper c then ascii_of_N (code c + 32) else c.

End Char.

(** ** Strings *)

Module Str.

Fixpoint map (f : ascii → ascii) (s : string) : string :=
  match s with
  | EmptyString => EmptyString
  | String c t => String (f c) (map f t)
  end.

Fixpoint forallb (p : ascii → bool) (s : string) : bool :=
  match s with
  | EmptyString => true
  | String c t => p c && forallb p t
  end.

(** [s.includes(c)] for a one-character needle. *)
Fixpoint includes (c : ascii) (s : string) : bool :=
  match s with
  | EmptyString => false
  | String d t => Ascii.eqb d c || includes c t
  end.

Definition toUpperCase : string → string := map Char.toUpperCase.
Definition toLowerCase : string → string := map Char.toLowerCase.

(** [s.charAt(0)]: the first character as a string, empty on the empty
    string. *)
Definition charAt0 (s : string) : string :=
  match s with
  | EmptyString => EmptyString
  | String c _ => String c EmptyString
  end.

(** [s.slice(1)] *)
Definition slice1 (s : string) : string :=
  match s with
  | EmptyString => EmptyString
  | String _ t => t
  end.

(** [s.split(c)] for a one-character separator: never the empty list. *)
Fixpoint split (c : ascii) (s : string) : list string :=
  match s with
  | EmptyString => [EmptyString]
  | String d t =>
      if Ascii.eqb d c then EmptyString :: split c t
      else match split c t with
           | h :: r => String d h :: r
           | [] => [String d EmptyString]
           end
  end.

(** [parts.join(sep)] *)
Fixpoint join (sep : string) (parts : list string) : string :=
  match parts with
  | [] => EmptyString
  | [p] => p
  | p :: r => p +:+ sep +:+ join sep r
  end.

(** [/^\d/.test(s)] *)
Definition starts_with_digit (s : string) : bool :=
  match s with
  | String c _ => Char.is_digit c
  | EmptyString => false
  end.

End Str.

(** ** NameNormalizer *)

(** [s.replace(/[^a-zA-Z0-9_$]/g, '_')] *)
Definition replace_invalid : string → string :=
  Str.map (fun c => if Char.is_word c then c else "_"%char).

(** [s.replace(/[_-]([a-zA-Z0-9])/g, (_, char) => char.toUpperCase())]:
    the scan is left to right and a match consumes both characters. *)
Fixpoint camelCase (s : string) : string :=
  match s with
  | EmptyString => EmptyString
  | String c t =>
      match t with
      | String d t' =>
          if Char.is_sep c && Char.is_alnum d
          then String (Char.toUpperCase d) (camelCase t')
          else String c (camelCase t)
      | EmptyString => String c EmptyString
      end
  end.

Definition normalizeParamName (name : string) : string :=
  (* Replace invalid characters with underscores *)
  let normalized := replace_invalid name in
  (* Ensure the name doesn't start with a number *)
  let normalized :=
    if Str.starts_with_digit normalized then String "_" normalized
    else normalized in
  (* Convert to camelCase if it contains underscores or hyphens *)
  let normalized :=
    if Str.includes "-" name || Str.includes "_" name
    then camelCase normalized
    else normalized in
  normalized.

(** [/[_-][a-zA-Z0-9]/.test(s)]: does the camel-case pattern occur? *)
Fixpoint has_camel_match (s : string) : bool :=
  match s with
  | EmptyString => false
  | String c t =>
      match t with
      | String d _ => (Char.is_sep c && Char.is_alnum d) || has_camel_match t
      | EmptyString => false
      end
  end.

(** A JavaScript identifier over the ASCII alphabet. *)
Definition is_identifier (s : string) : bool :=
  match s with
  | EmptyString => false
  | String c t => Char.is_ident_start c && Str.forallb Char.is_word t
  end.


(** ** Path templates *)

(** [path.replace(/^\//, '')] *)
Definition strip_leading_slash (path : string) : string :=
  match path with
  | String "/" t => t
  | _ => path
  end.

(** [s.replace(/{([^}]+)}/g, f)] where [f] receives the captured group.
    Outside a placeholder, [replacePlaceholders] copies characters until
    an opening brace.  After an opening brace, [inPlaceholder] gathers in
    [acc] the characters other than the closing brace: a closing brace
    after at least one such character completes a match, which [f acc]
    replaces; a closing brace right after the opening one, or the end of
    the string, means that the expression does not match at that opening
    brace (nor at any brace gathered in [acc]), and the text is kept. *)
Fixpoint replacePlaceholders (f : string → string) (s : string) : string :=
  match s with
  | EmptyString => EmptyString
  | String c t =>
      if Ascii.eqb c "{" then inPlaceholder f EmptyString t
      else String c (replacePlaceholders f t)
  end
with inPlaceholder (f : string → string) (acc s : string) : string :=
  match s with
  | EmptyString => String "{" acc
  | String c t =>
      if Ascii.eqb c "}" then
        match acc with
        | EmptyString => String "{" (String "}" (replacePlaceholders f t))
        | _ => f acc +:+ replacePlaceholders f t
        end
      else inPlaceholder f (acc +:+ String c EmptyString) t
  end.

(** ** OperationPlanner: the derived method name *)

(** The callback of [parts.map((part, index) => ...)]. *)
Definition camelCasePart (index : nat) (part : string) : string :=
  (* First part is lowercase, rest are capitalized *)
  match index with
  | O => Str.toLowerCase part
  | S _ =>
      Str.toUpperCase (Str.charAt0 part) +:+ Str.toLowerCase (Str.slice1 part)
  end.

Definition generateFunctionNameFromPath (method path : string) : string :=
  (* Remove leading slash and replace path parameters *)
  let cleanPath :=
    replacePlaceholders (fun name => name) (strip_leading_slash path) in
  (* Split by slashes and convert to camelCase *)
  let parts := Str.split "/" cleanPath in
  let camelCaseParts := imap camelCasePart parts in
  (* Combine method and path parts *)
  Str.toLowerCase method +:+ Str.join EmptyString camelCaseParts.

(** The procedure as the specification words it: the first segment in
    lower case, every later segment with its first letter capitalised and
    its remaining characters unchanged. *)
Definition capitalizePart_spec (index : nat) (part : string) : string :=
  match index with
  | O => Str.toLowerCase part
  | S _ => Str.toUpperCase (Str.charAt0 part) +:+ Str.slice1 part
  end.

Definition derivedName_spec (method path : string) : string :=
  let cleanPath :=
    replacePlaceholders (fun name => name) (strip_leading_slash path) in
  Str.toLowerCase method
  +:+ Str.join EmptyString (imap capitalizePart_spec (Str.split "/" cleanPath)).

(** A path template seen as its segments: a literal segment or a
    path-parameter segment [{name}]. *)
Inductive segment :=
| Literal (text : string)
| PathParam (name : string).

Definition segment_text (g : segment) : string :=
  match g with
  | Literal t => t
  | PathParam n => n
  end.

Definition segment_source (g : segment) : string :=
  match g with
  | Literal t => t
  | PathParam n => "{" +:+ n +:+ "}"
  end.

(** The path template [/seg0/seg1/.../segk]. *)
Definition path_of_segments (segs : list segment) : string :=
  String "/" (Str.join "/" (segment_source <$> segs)).

(** A literal segment has no slash and no opening brace; a parameter name
    is not empty and has no slash and no closing brace. *)
Definition segment_ok (g : segment) : bool :=
  match g with
  | Literal t => negb (Str.includes "/" t) && negb (Str.includes "{" t)
  | PathParam n =>
      negb (String.eqb n EmptyString)
      && negb (Str.includes "/" n) && negb (Str.includes "}" n)
  end.

(** Capitalised first character, lower-cased remainder. *)
Definition capitalize (s : string) : string :=
  match s with
  | EmptyString => EmptyString
  | String c t => String (Char.toUpperCase c) (Str.toLowerCase t)
  end.

(** ** The document tree

    The parsed document is a JSON value.  The fields of [JObj] are the
    own properties of the object in the order in which [Object.keys] and
    [Object.entries] enumerate them, with pairwise distinct keys; for keys
    that are not array indices (media types, path templates, method and
    property names) that is the order of declaration in the document.
    Inherited and non-enumerable properties ([length], the methods of the
    prototypes) are outside the model. *)
Inductive json :=
| JNull
| JBool (b : bool)
| JNum (z : Z)
| JStr (s : string)
| JArr (items : list json)
| JObj (fields : list (string * json)).

Definition string_of_nat (n : nat) : string :=
  NilZero.string_of_uint (Nat.to_uint n).

Definition indexed {A} (l : list A) : list (string * A) :=
  imap (fun i x => (string_of_nat i, x)) l.

(** [Object.entries(v)] *)
Definition own_entries (v : json) : list (string * json) :=
  match v with
  | JObj fields => fields
  | JArr items => indexed items
  | JStr s =>
      indexed ((fun c => JStr (String c EmptyString)) <$> list_ascii_of_string s)
  | _ => []
  end.

Fixpoint assoc {A} (k : string) (l : list (string * A)) : option A :=
  match l with
  | [] => None
  | (k', v) :: r => if String.eqb k' k then Some v else assoc k r
  end.

(** [v[k]] and [v.k] on the own properties of [v]; [None] is
    [undefined]. *)
Definition get (v : json) (k : string) : option json :=
  assoc k (own_entries v).

(** Truthiness, as tested by [if (v)], [!v], [a || b] and [a && b]. *)
Definition truthy (v : json) : bool :=
  match v with
  | JNull => false
  | JBool b => b
  | JNum z => negb (z =? 0)%Z
  | JStr s => negb (String.eqb s EmptyString)
  | JArr _ | JObj _ => true
  end.

Definition truthy_opt (v : option json) : bool :=
  match v with
  | Some v => truthy v
  | None => false
  end.

(** [v === 'text'] *)
Definition is_str (text : string) (v : option json) : bool :=
  match v with
  | Some (JStr s) => String.eqb s text
  | _ => false
  end.

(** [String(v)], the conversion applied to a value used as a property
    key or spliced into a template.  A number is printed with all its
    digits, which is what the source does for the integers below [2^53]
    ([printable]). *)
Fixpoint js_to_string (v : json) : string :=
  match v with
  | JNull => "null"
  | JBool true => "true"
  | JBool false => "false"
  | JNum z => NilZero.string_of_int (Z.to_int z)
  | JStr s => s
  | JArr items =>
      let element x :=
        match x with
        | JNull => EmptyString
        | _ => js_to_string x
        end in
      (fix joined (l : list json) : string :=
         match l with
         | [] => EmptyString
         | [x] => element x
         | x :: r => element x +:+ "," +:+ joined r
         end) items
  | JObj _ => "[object Object]"
  end.

Definition key_of (v : option json) : string :=
  match v with
  | Some v => js_to_string v
  | None => "undefined"
  end.

(** ** Outcomes of the generator

    A computation finishes with a value and the diagnostics it printed
    with [console.warn], throws, or does not return (the model's fuel is
    used up). *)
Inductive outcome (A : Type) :=
| Done (a : A) (log : list string)
| Thrown
| Diverged.
Arguments Done {A} a log.
Arguments Thrown {A}.
Arguments Diverged {A}.

Global Instance outcome_ret : MRet outcome := fun A a => Done a [].
Global Instance outcome_bind : MBind outcome := fun A B f m =>
  match m with
  | Done a log =>
      match f a with
      | Done b log' => Done b (log ++ log')
      | Thrown => Thrown
      | Diverged => Diverged
      end
  | Thrown => Thrown
  | Diverged => Diverged
  end.

Definition warn (msg : string) : outcome unit := Done () [msg].

Definition value_of {A} (m : outcome A) : option A :=
  match m with
  | Done a _ => Some a
  | _ => None
  end.

Definition log_of {A} (m : outcome A) : list string :=
  match m with
  | Done _ log => log
  | _ => []
  end.

(** ** SchemaResolver *)

(** [{ type: 'any' }], the "unknown" marker. *)
Definition any_schema : json := JObj [("type", JStr "any")].

Fixpoint strip_prefix (p s : string) : option string :=
  match p, s with
  | EmptyString, _ => Some s
  | String a p', String b s' => if Ascii.eqb a b then strip_prefix p' s' else None
  | String _ _, EmptyString => None
  end.

(** [s.replace(pat, '')] for a string pattern: the first occurrence only. *)
Fixpoint remove_first (pat s : string) : string :=
  match strip_prefix pat s with
  | Some rest => rest
  | None =>
      match s with
      | EmptyString => EmptyString
      | String c t => String c (remove_first pat t)
      end
  end.

(** The loop [for (const segment of refPath)]: [None] when some
    [resolved[segment]] is falsy. *)
Fixpoint walk (resolved : json) (refPath : list string) : option json :=
  match refPath with
  | [] => Some resolved
  | segment :: rest =>
      match get resolved segment with
      | Some next => if truthy next then walk next rest else None
      | None => None
      end
  end.

(** [fuel] bounds the number of references followed in a row. *)
Fixpoint resolveSchema (fuel : nat) (spec : json) (schema : option json)
  : outcome json :=
  match schema with
  | None => mret any_schema
  | Some node =>
      if negb (truthy node) then mret any_schema
      else
        let ref := get node "$ref" in
        if truthy_opt ref then
          match ref with
          | Some (JStr r) =>
              let refPath := Str.split "/" (remove_first "#/" r) in
              match walk spec refPath with
              | None =>
                  _ ← warn ("Could not resolve reference: " +:+ r);
                  mret any_schema
              | Some resolved =>
                  match fuel with
                  | O => Diverged
                  | S fuel' => resolveSchema fuel' spec (Some resolved)
                  end
              end
          | _ => Thrown (* schema.$ref.replace is not a function *)
          end
        else mret node
  end.

(** ** TypeInferencer *)

(** The entries of the table [typeMap].  ([typeMap[key]] also finds the
    members that the table inherits, [object_prototype_names].) *)
Definition typeMap (key : string) : option string :=
  if String.eqb key "integer" then Some "number"
  else if String.eqb key "number" then Some "number"
  else if String.eqb key "string" then Some "string"
  else if String.eqb key "boolean" then Some "boolean"
  else if String.eqb key "null" then Some "null"
  else None.

(** [hay.includes(needle)] on strings. *)
Fixpoint is_substring (needle hay : string) : bool :=
  match strip_prefix needle hay with
  | Some _ => true
  | None =>
      match hay with
      | EmptyString => false
      | String _ t => is_substring needle t
      end
  end.

(** [schema.required && schema.required.includes(name)], as the
    condition of [?:].  Arrays and strings have an [includes] method;
    calling it on another truthy value throws. *)
Definition isRequired (required : option json) (name : string) : outcome bool :=
  match required with
  | None => mret false
  | Some r =>
      if negb (truthy r) then mret false
      else match r with
           | JArr items => mret (existsb (fun x => is_str name (Some x)) items)
           | JStr s => mret (is_substring name s)
           | _ => Thrown
           end
  end.

Definition entries_opt (v : option json) : list (string * json) :=
  match v with
  | Some v => own_entries v
  | None => []
  end.

(** The callback of [Object.entries(schema.properties).map(...)]. *)
Definition memberType (recur : json → outcome string) (schema : json)
    (member : string * json) : outcome string :=
  let '(name, propSchema) := member in
  propType ← recur propSchema;
  isRequired ← isRequired (get schema "required") name;
  mret (name +:+ (if isRequired : bool then EmptyString else "?")
        +:+ ": " +:+ propType).

(** The body of [getTypeFromSchema]; its recursive calls go through
    [recur]. *)
Definition inferType (recur : json → outcome string) (schema : json)
  : outcome string :=
  if negb (truthy schema) then mret "any"
  else
    let type := get schema "type" in
    let properties := get schema "properties" in
    if is_str "array" type then
      itemType ← (if truthy_opt (get schema "items")
                  then match get schema "items" with
                       | Some items => recur items
                       | None => mret "any"
                       end
                  else mret "any");
      mret ("Array<" +:+ itemType +:+ ">")
    else if is_str "object" type
            || (negb (truthy_opt type) && truthy_opt properties) then
      if truthy_opt properties then
        props ← mapM (memberType recur schema) (entries_opt properties);
        mret ("{" +:+ Str.join ", " props +:+ "}")
      else mret "object"
    else
      (* Map OpenAPI types to JavaScript types *)
      mret (default "any" (typeMap (key_of type))).

(** [fuel] bounds the nesting depth that is explored. *)
Fixpoint getTypeFromSchema_fuel (fuel : nat) (schema : json) : outcome string :=
  inferType
    (match fuel with
     | O => fun _ => Diverged
     | S fuel' => getTypeFromSchema_fuel fuel'
     end)
    schema.

Fixpoint depth (v : json) : nat :=
  match v with
  | JArr items =>
      S ((fix deepest (l : list json) : nat :=
            match l with
            | [] => O
            | x :: r => Nat.max (depth x) (deepest r)
            end) items)
  | JObj fields =>
      S ((fix deepest (l : list (string * json)) : nat :=
            match l with
            | [] => O
            | (_, x) :: r => Nat.max (depth x) (deepest r)
            end) fields)
  | _ => O
  end.

(** A JSON value is a finite tree: its own depth is fuel enough. *)
Definition getTypeFromSchema (schema : json) : outcome string :=
  getTypeFromSchema_fuel (depth schema) schema.

(** A schema node that is a reference pointer. *)
Definition reference (pointer : string) : json :=
  JObj [("$ref", JStr pointer)].

(** The reading of the specification for arrays: the items schema is
    resolved against the document before its type is inferred. *)
Definition arrayType_spec (fuel : nat) (spec : json) (schema : json)
  : outcome string :=
  items ← resolveSchema fuel spec (get schema "items");
  itemType ← getTypeFromSchema items;
  mret ("Array<" +:+ itemType +:+ ">").

(** [resolveSchema] returns [result] on [schema]: some number of
    reference hops suffices. *)
Definition resolvesTo (spec : json) (schema : option json) (result : json)
  : Prop :=
  ∃ fuel log, resolveSchema fuel spec schema = Done result log.

(** Some segment of the path is absent where the walk arrives. *)
Definition missing_segment (spec : json) (refPath : list string) : Prop :=
  ∃ before segment after node,
    refPath = before ++ segment :: after
    ∧ walk spec before = Some node
    ∧ get node segment = None.

(** The segments of a pointer, as [resolveSchema] computes them. *)
Definition refPath_of (pointer : string) : list string :=
  Str.split "/" (remove_first "#/" pointer).

(** ** The OpenAPI document, as the generator reads it

    The generator reads the operations through the fields below; schemas
    stay JSON values, and reference resolution walks [doc_tree], the whole
    document as a JSON value.  An absent optional field is [None]; an
    absent [parameters] or [responses] is the empty list. *)
Record parameter := {
  param_name : string;
  param_in : string;
  param_required : bool;
  param_schema : option json;
  param_description : option string
}.

Record media_type := { media_schema : option json }.

Record request_body := {
  body_required : bool;
  body_description : option string;
  body_content : list (string * media_type)
}.

Record response := {
  resp_description : option string;
  resp_content : option (list (string * media_type))
}.

Record operation := {
  operationId : option string;
  summary : option string;
  op_description : option string;
  parameters : list parameter;
  requestBody : option request_body;
  responses : list (string * response)
}.

Record info := {
  title : string;
  info_description : option string;
  version : string
}.

Record document := {
  doc_info : info;
  doc_paths : list (string * list (string * operation));
  doc_tree : json
}.

(** ** Text helpers *)

Definition nl : string := String (ascii_of_nat 10) EmptyString.
Definition dquote : string := String (ascii_of_nat 34) EmptyString.

(** [a || d] on an optional string: the empty string is falsy. *)
Definition or_else (a : option string) (d : string) : string :=
  match a with
  | Some s => if String.eqb s EmptyString then d else s
  | None => d
  end.

(** The text appended by a [for] loop whose body appends [f x]. *)
Definition emit_each {A} (f : A → string) (l : list A) : string :=
  foldr (fun x rest => f x +:+ rest) EmptyString l.
Global Arguments emit_each : simpl never.

(** [Object.keys(content)[0] || 'application/json'] *)
Definition primaryContentType {A} (content : list (string * A)) : string :=
  or_else (fst <$> head content) "application/json".

(** ** FunctionSynthesizer: the documentation block *)

Definition optional_suffix (required : bool) : string :=
  if required then EmptyString else " (optional)".

Definition paramDocLine (fuel : nat) (spec : json) (param : parameter)
  : outcome string :=
  schema ← resolveSchema fuel spec (param_schema param);
  type ← getTypeFromSchema schema;
  let description := or_else (param_description param) EmptyString in
  let required := optional_suffix (param_required param) in
  let normalizedName := normalizeParamName (param_name param) in
  mret (" * @param {" +:+ type +:+ "} params." +:+ normalizedName +:+ " - "
        +:+ description +:+ required +:+ nl).

Definition bodyDocLine (fuel : nat) (spec : json) (requestBody : request_body)
  : outcome string :=
  let contentType := primaryContentType (body_content requestBody) in
  match assoc contentType (body_content requestBody) with
  | None => Thrown (* requestBody.content[contentType] is undefined *)
  | Some media =>
      schema ← resolveSchema fuel spec (media_schema media);
      type ← getTypeFromSchema schema;
      let description := or_else (body_description requestBody) "Request body" in
      let required := optional_suffix (body_required requestBody) in
      mret (" * @param {" +:+ type +:+ "} params.requestData - "
            +:+ description +:+ required +:+ nl)
  end.

Definition returnDocLine (fuel : nat) (spec : json) (op : operation)
  : outcome string :=
  match assoc "200" (responses op) with
  | Some successResponse =>
      match resp_content successResponse with
      | Some content =>
          let contentType := primaryContentType content in
          match assoc contentType content with
          | None => Thrown (* content[contentType] is undefined *)
          | Some media =>
              let what :=
                or_else (resp_description successResponse) "response data" in
              if truthy_opt (media_schema media) then
                resolvedSchema ← resolveSchema fuel spec (media_schema media);
                type ← getTypeFromSchema resolvedSchema;
                mret (" * @returns {Promise<" +:+ type
                      +:+ ">} Promise resolving to " +:+ what +:+ nl)
              else
                mret (" * @returns {Promise<any>} Promise resolving to "
                      +:+ what +:+ nl)
          end
      | None =>
          mret (" * @returns {Promise<any>} Promise resolving to response data"
                +:+ nl)
      end
  | None =>
      mret (" * @returns {Promise<any>} Promise resolving to response data"
            +:+ nl)
  end.

Definition generateJSDoc (fuel : nat) (spec : json) (op : operation)
    (pathParams queryParams headerParams : list parameter)
    (requestBody : option request_body) : outcome string :=
  let jsDoc := "/**" +:+ nl in
  (* Function description *)
  let jsDoc := jsDoc +:+ " * " +:+ or_else (summary op) EmptyString +:+ nl in
  let jsDoc :=
    jsDoc +:+ match op_description op with
              | Some d =>
                  if String.eqb d EmptyString then EmptyString
                  else " * " +:+ d +:+ nl
              | None => EmptyString
              end in
  let jsDoc := jsDoc +:+ " *" +:+ nl in
  (* Single params object parameter *)
  let jsDoc :=
    jsDoc +:+ " * @param {Object} params - The parameters for the request"
    +:+ nl in
  (* Individual parameters as properties *)
  let allParams := pathParams ++ queryParams ++ headerParams in
  paramLines ← mapM (paramDocLine fuel spec) allParams;
  let jsDoc := jsDoc +:+ Str.join EmptyString paramLines in
  (* Request body *)
  bodyLine ← match requestBody with
             | Some body => bodyDocLine fuel spec body
             | None => mret EmptyString
             end;
  let jsDoc := jsDoc +:+ bodyLine in
  (* Return type *)
  returnLine ← returnDocLine fuel spec op;
  let jsDoc := jsDoc +:+ returnLine in
  mret (jsDoc +:+ " */").

(** ** ModuleAssembler: the header template *)

Definition generateModuleHeader (spec : document) (baseUrl : string) : string :=
  Str.join nl [
    "/**";
    " * " +:+ title (doc_info spec) +:+ " - API Client";
    " * " +:+ or_else (info_description (doc_info spec)) EmptyString;
    " * Version: " +:+ version (doc_info spec);
    " * ";
    " * Auto-generated from OpenAPI specification";
    " */";
    EmptyString;
    "/**";
    " * Creates an API client with the specified configuration";
    " * @param {Object} config - Client configuration";
    " * @param {string} config.baseUrl - Base URL for API requests";
    " * @returns {Object} - API client object with all available methods";
    " */";
    "function createClient(config = {}) {";
    "  // Use provided baseUrl or default";
    "  const BASE_URL = config.baseUrl || " +:+ dquote +:+ baseUrl +:+ dquote +:+ ";";
    EmptyString;
    "  /**";
    "   * Makes a request using wx.request with Promise wrapper";
    "   * @param {Object} options - The wx.request options";
    "   * @returns {Promise<any>} - Promise resolving to the response data";
    "   */";
    "  function request(options) {";
    "    return new Promise((resolve, reject) => {";
    "      wx.request({";
    "        ...options,";
    "        success: (res) => {";
    "          if (res.statusCode >= 200 && res.statusCode < 300) {";
    "            resolve(res.data);";
    "          } else {";
    "            reject({";
    "              statusCode: res.statusCode,";
    "              message: res.data?.message || 'Request failed',";
    "              data: res.data";
    "            });";
    "          }";
    "        },";
    "        fail: (err) => {";
    "          reject({";
    "            message: err.errMsg || 'Network error',";
    "            ...err";
    "          });";
    "        }";
    "      });";
    "    });";
    "  }";
    EmptyString;
    "  // Client object to hold all API methods";
    "  const client = {};";
    EmptyString;
    EmptyString
  ].

(** ** FunctionSynthesizer: the emitted method *)

(** [operation.operationId || generateFunctionNameFromPath(method, path)] *)
Definition functionName (op : operation) (method path : string) : string :=
  or_else (operationId op) (generateFunctionNameFromPath method path).

(** [(operation.parameters || []).filter(p => p.in === location)] *)
Definition paramsIn (location : string) (op : operation) : list parameter :=
  filter (fun p => param_in p = location) (parameters op).

Definition default_suffix (required : bool) : string :=
  if required then EmptyString else " = undefined".

(** The [const { ... } = params;] statement. *)
Definition destructureBlock (pathParams queryParams headerParams : list parameter)
    (requestBody : option request_body) : string :=
  match pathParams, queryParams, headerParams, requestBody with
  | [], [], [], None => EmptyString
  | _, _, _, _ =>
      "    // Destructure parameters with defaults" +:+ nl
      +:+ "    const {" +:+ nl
      (* Add path parameters *)
      +:+ emit_each (fun param =>
            let normalizedName := normalizeParamName (param_name param) in
            "      " +:+ normalizedName +:+ "," +:+ nl) pathParams
      (* Add query parameters with defaults *)
      +:+ emit_each (fun param =>
            let normalizedName := normalizeParamName (param_name param) in
            "      " +:+ normalizedName
            +:+ default_suffix (param_required param) +:+ "," +:+ nl) queryParams
      (* Add header parameters with defaults *)
      +:+ emit_each (fun param =>
            let normalizedName := normalizeParamName (param_name param) in
            "      " +:+ normalizedName
            +:+ default_suffix (param_required param) +:+ "," +:+ nl) headerParams
      (* Add request body if present *)
      +:+ match requestBody with
          | Some body =>
              "      requestData" +:+ default_suffix (body_required body)
              +:+ "," +:+ nl
          | None => EmptyString
          end
      +:+ "    } = params;" +:+ nl +:+ nl
  end.

(** The path template with each placeholder turned into an interpolation
    of the normalized name. *)
Definition pathTemplate (path : string) : string :=
  replacePlaceholders
    (fun paramName =>
       let normalizedName := normalizeParamName paramName in
       "${" +:+ normalizedName +:+ "}")
    path.

(** The template literal that initialises [url], backquotes included. *)
Definition urlTemplate (path : string) : string :=
  "`${BASE_URL}" +:+ pathTemplate path +:+ "`".

Definition urlBlock (path : string) : string :=
  "    // Construct URL with path parameters" +:+ nl
  +:+ "    let url = " +:+ urlTemplate path +:+ ";" +:+ nl.

Definition queryBlock (queryParams : list parameter) : string :=
  match queryParams with
  | [] => EmptyString
  | _ =>
      nl +:+ "    // Add query parameters" +:+ nl
      +:+ "    const queryString = [];" +:+ nl
      +:+ emit_each (fun param =>
            let normalizedName := normalizeParamName (param_name param) in
            "    if (" +:+ normalizedName +:+ " !== undefined) {" +:+ nl
            +:+ "      queryString.push(`" +:+ param_name param
            +:+ "=${encodeURIComponent(" +:+ normalizedName +:+ ")}`);" +:+ nl
            +:+ "    }" +:+ nl) queryParams
      +:+ "    if (queryString.length > 0) {" +:+ nl
      +:+ "      url += `?${queryString.join('&')}`;" +:+ nl
      +:+ "    }" +:+ nl
  end.

(** The lines ['name': normalizedName,] of a header literal. *)
Definition headerLines (headerParams : list parameter) : string :=
  emit_each (fun param =>
      let normalizedName := normalizeParamName (param_name param) in
      "        '" +:+ param_name param +:+ "': " +:+ normalizedName +:+ ","
      +:+ nl) headerParams.

Definition optionsBlock (method : string) (headerParams : list parameter)
    (requestBody : option request_body) : string :=
  nl +:+ "    // Prepare request options" +:+ nl
  +:+ "    const options = {" +:+ nl
  +:+ "      url," +:+ nl
  +:+ "      method: '" +:+ Str.toUpperCase method +:+ "'," +:+ nl
  (* Headers with normalized names *)
  +:+ match headerParams with
      | [] => EmptyString
      | _ =>
          "      header: {" +:+ nl
          +:+ headerLines headerParams
          +:+ "      }," +:+ nl
      end
  (* Request body *)
  +:+ match requestBody with
      | Some body =>
          let contentType := primaryContentType (body_content body) in
          "      header: {" +:+ nl
          +:+ "        'Content-Type': '" +:+ contentType +:+ "'," +:+ nl
          +:+ headerLines headerParams
          +:+ "      }," +:+ nl
          +:+ "      data: requestData," +:+ nl
      | None => EmptyString
      end
  +:+ "    };" +:+ nl +:+ nl.

(** The statements between the braces of the emitted function. *)
Definition methodBody (path method : string)
    (pathParams queryParams headerParams : list parameter)
    (requestBody : option request_body) : string :=
  destructureBlock pathParams queryParams headerParams requestBody
  +:+ urlBlock path
  +:+ queryBlock queryParams
  +:+ optionsBlock method headerParams requestBody
  +:+ "    return request(options);" +:+ nl.

Record function_info := { name : string; code : string }.

(** [baseUrl] is a parameter of the source function that it never uses. *)
Definition generateFunction (fuel : nat) (spec : json) (path method : string)
    (op : operation) (baseUrl : string) : outcome function_info :=
  (* Generate function name based on operationId or path+method *)
  let functionName := functionName op method path in
  (* Extract parameters and request body *)
  let pathParams := paramsIn "path" op in
  let queryParams := paramsIn "query" op in
  let headerParams := paramsIn "header" op in
  let requestBody := requestBody op in
  (* Generate JSDoc for the function *)
  jsDoc ← generateJSDoc fuel spec op pathParams queryParams headerParams
            requestBody;
  (* Generate function implementation - now as a client method *)
  let functionCode :=
    jsDoc +:+ nl +:+ "  client." +:+ functionName
    +:+ " = function(params = {}) {" +:+ nl
    +:+ methodBody path method pathParams queryParams headerParams requestBody
    +:+ "  };" +:+ nl in
  mret {| name := functionName; code := functionCode |}.

(** ** ModuleAssembler *)

Definition http_methods : list string :=
  ["get"; "post"; "put"; "delete"; "patch"; "head"; "options"].

(** The operations in the order of the two nested loops, those under a
    key that is not an HTTP method skipped. *)
Definition operations_of (spec : document)
  : list (string * string * operation) :=
  '(path, pathItem) ← doc_paths spec;
  '(method, op) ← pathItem;
  if bool_decide (method ∈ http_methods) then [(path, method, op)] else [].

Definition generateFunctions (fuel : nat) (spec : document) (baseUrl : string)
  : outcome (list function_info) :=
  mapM (fun '(path, method, op) =>
          generateFunction fuel (doc_tree spec) path method op baseUrl)
       (operations_of spec).

Definition generateJavaScriptModule (fuel : nat) (spec : document)
    (baseUrl : string) : outcome string :=
  (* Start with module header *)
  let header := generateModuleHeader spec baseUrl in
  (* Generate functions for each path and method *)
  functionInfos ← generateFunctions fuel spec baseUrl;
  let functionDefinitions := code <$> functionInfos in
  let exportedFunctions := name <$> functionInfos in
  mret (header
        (* Add function definitions to the code *)
        +:+ Str.join (nl +:+ nl) functionDefinitions
        (* Add return client and module exports *)
        +:+ nl +:+ nl +:+ "  return client;" +:+ nl +:+ "}" +:+ nl +:+ nl
        +:+ "// Export the client factory function" +:+ nl
        +:+ "module.exports = { createClient };" +:+ nl).

(** ** The emitted method as a program

    The generator emits text.  What the emitted text does when the
    generated module runs is described in two steps: [plan] gives the
    statements that the generator emits for an operation, [render] their
    concrete syntax (theorem [methodBody_render] shows that it is the
    text of [generateFunction], character for character), and [exec]
    their JavaScript meaning.

    A method whose declarations the engine rejects is never called
    ([accepted]): the module that holds it does not load.  The meaning
    is that of the methods whose text is what it looks like
    ([method_in_model]): the names spliced into the text do not end the
    quotation, template or comment they are spliced into, the names
    bound by the destructuring are identifiers that hide none of the
    names the method reads ([undefined], [encodeURIComponent],
    [request]) and are not inherited by the caller's [params], and the
    URL template reads no name of an enclosing scope other than
    [BASE_URL]. *)

(** A piece of a template literal: text, [${x}] or
    [${encodeURIComponent(x)}]. *)
Inductive fragment :=
| Text (s : string)
| Interp (x : string)
| InterpEncoded (x : string).

(** A value in a header literal: an identifier or a quoted string. *)
Inductive expr :=
| Ident (x : string)
| Quoted (s : string).

(** An entry of the [options] literal. *)
Inductive entry :=
| EntryUrl
| EntryMethod (verb : string)
| EntryHeader (fields : list (string * expr))
| EntryData.

Inductive stmt :=
| Destructure (fields : list (string * bool))
| LetUrl (template : list fragment)
| ConstQueryString
| PushIfDefined (x : string) (template : list fragment)
| AppendQuery
| ConstOptions (entries : list entry)
| ReturnRequest.

(** *** Concrete syntax *)

Definition render_fragment (f : fragment) : string :=
  match f with
  | Text s => s
  | Interp x => "${" +:+ x +:+ "}"
  | InterpEncoded x => "${encodeURIComponent(" +:+ x +:+ ")}"
  end.

Definition render_template (t : list fragment) : string :=
  emit_each render_fragment t.

Definition render_expr (e : expr) : string :=
  match e with
  | Ident x => x
  | Quoted s => "'" +:+ s +:+ "'"
  end.

Definition render_header_field (f : string * expr) : string :=
  "        '" +:+ f.1 +:+ "': " +:+ render_expr f.2 +:+ "," +:+ nl.

Definition render_entry (e : entry) : string :=
  match e with
  | EntryUrl => "      url," +:+ nl
  | EntryMethod verb => "      method: '" +:+ verb +:+ "'," +:+ nl
  | EntryHeader fields =>
      "      header: {" +:+ nl
      +:+ emit_each render_header_field fields
      +:+ "      }," +:+ nl
  | EntryData => "      data: requestData," +:+ nl
  end.

Definition render_field (f : string * bool) : string :=
  "      " +:+ f.1 +:+ (if f.2 then " = undefined" else EmptyString)
  +:+ "," +:+ nl.

Definition render_stmt (s : stmt) : string :=
  match s with
  | Destructure fields =>
      "    // Destructure parameters with defaults" +:+ nl
      +:+ "    const {" +:+ nl
      +:+ emit_each render_field fields
      +:+ "    } = params;" +:+ nl +:+ nl
  | LetUrl t =>
      "    // Construct URL with path parameters" +:+ nl
      +:+ "    let url = `" +:+ render_template t +:+ "`;" +:+ nl
  | ConstQueryString =>
      nl +:+ "    // Add query parameters" +:+ nl
      +:+ "    const queryString = [];" +:+ nl
  | PushIfDefined x t =>
      "    if (" +:+ x +:+ " !== undefined) {" +:+ nl
      +:+ "      queryString.push(`" +:+ render_template t +:+ "`);" +:+ nl
      +:+ "    }" +:+ nl
  | AppendQuery =>
      "    if (queryString.length > 0) {" +:+ nl
      +:+ "      url += `?${queryString.join('&')}`;" +:+ nl
      +:+ "    }" +:+ nl
  | ConstOptions entries =>
      nl +:+ "    // Prepare request options" +:+ nl
      +:+ "    const options = {" +:+ nl
      +:+ emit_each render_entry entries
      +:+ "    };" +:+ nl +:+ nl
  | ReturnRequest => "    return request(options);" +:+ nl
  end.

Definition render (body : list stmt) : string :=
  emit_each render_stmt body.

(** [client.name = function(params = {}) { body };] *)
Definition render_method (name : string) (body : list stmt) : string :=
  "  client." +:+ name +:+ " = function(params = {}) {" +:+ nl
  +:+ render body
  +:+ "  };" +:+ nl.

(** *** The statements emitted for an operation *)

(** The pieces of a path template, scanned as [replacePlaceholders]
    scans it: [text] is the literal text read since the last piece. *)
Fixpoint scanPath (text s : string) : list fragment :=
  match s with
  | EmptyString => [Text text]
  | String c t =>
      if Ascii.eqb c "{" then scanPlaceholder text EmptyString t
      else scanPath (text +:+ String c EmptyString) t
  end
with scanPlaceholder (text acc s : string) : list fragment :=
  match s with
  | EmptyString => [Text (text +:+ String "{" acc)]
  | String c t =>
      if Ascii.eqb c "}" then
        match acc with
        | EmptyString => scanPath (text +:+ "{}") t
        | _ => Text text :: Interp (normalizeParamName acc)
               :: scanPath EmptyString t
        end
      else scanPlaceholder text (acc +:+ String c EmptyString) t
  end.

Definition queryPair (param : parameter) : stmt :=
  PushIfDefined (normalizeParamName (param_name param))
    [Text (param_name param +:+ "=");
     InterpEncoded (normalizeParamName (param_name param))].

Definition headerField (param : parameter) : string * expr :=
  (param_name param, Ident (normalizeParamName (param_name param))).

Definition plan_fields (pathParams queryParams headerParams : list parameter)
    (requestBody : option request_body) : list (string * bool) :=
  ((fun p => (normalizeParamName (param_name p), false)) <$> pathParams)
  ++ ((fun p => (normalizeParamName (param_name p),
                 negb (param_required p))) <$> queryParams)
  ++ ((fun p => (normalizeParamName (param_name p),
                 negb (param_required p))) <$> headerParams)
  ++ match requestBody with
     | Some body => [("requestData", negb (body_required body))]
     | None => []
     end.

Definition plan_entries (method : string) (headerParams : list parameter)
    (requestBody : option request_body) : list entry :=
  [EntryUrl; EntryMethod (Str.toUpperCase method)]
  ++ match headerParams with
     | [] => []
     | _ => [EntryHeader (headerField <$> headerParams)]
     end
  ++ match requestBody with
     | Some body =>
         [EntryHeader
            (("Content-Type", Quoted (primaryContentType (body_content body)))
             :: (headerField <$> headerParams));
          EntryData]
     | None => []
     end.

Definition plan (path method : string)
    (pathParams queryParams headerParams : list parameter)
    (requestBody : option request_body) : list stmt :=
  match pathParams, queryParams, headerParams, requestBody with
  | [], [], [], None => []
  | _, _, _, _ =>
      [Destructure (plan_fields pathParams queryParams headerParams requestBody)]
  end
  ++ [LetUrl (Interp "BASE_URL" :: scanPath EmptyString path)]
  ++ match queryParams with
     | [] => []
     | _ => ConstQueryString :: (queryPair <$> queryParams) ++ [AppendQuery]
     end
  ++ [ConstOptions (plan_entries method headerParams requestBody);
      ReturnRequest].

Definition plan_operation (path method : string) (op : operation) : list stmt :=
  plan path method (paramsIn "path" op) (paramsIn "query" op)
    (paramsIn "header" op) (requestBody op).

(** *** Early errors

    The words that are no identifiers, [let] among them since the names
    are bound by [const]. *)
Definition reserved_words : list string :=
  ["break"; "case"; "catch"; "class"; "const"; "continue"; "debugger";
   "default"; "delete"; "do"; "else"; "enum"; "export"; "extends";
   "false"; "finally"; "for"; "function"; "if"; "import"; "in";
   "instanceof"; "let"; "new"; "null"; "return"; "super"; "switch";
   "this"; "throw"; "true"; "try"; "typeof"; "var"; "void"; "while";
   "with"].

Definition binding_identifier (x : string) : bool :=
  is_identifier x && negb (bool_decide (x ∈ reserved_words)).

(** The names that a statement declares in the body of the method. *)
Definition declares (s : stmt) : list string :=
  match s with
  | Destructure fields => fields.*1
  | LetUrl _ => ["url"]
  | ConstQueryString => ["queryString"]
  | ConstOptions _ => ["options"]
  | PushIfDefined _ _ | AppendQuery | ReturnRequest => []
  end.

Definition declared (body : list stmt) : list string :=
  body ≫= declares.

(** The engine rejects [function(params = {}) { body }] when [body]
    declares a name twice, declares the name of the parameter, or binds
    what is no identifier (the names that the generator writes are made
    of word characters: such a name is no identifier when it is empty,
    starts with a digit or is a reserved word). *)
Definition accepted (body : list stmt) : bool :=
  bool_decide (NoDup ("params" :: declared body))
  && forallb binding_identifier (declared body).

(** *** Meaning

    A run-time value is a JSON value or [undefined] ([None]).  The caller's
    [params] object maps property names to values; a property that is
    absent reads as [undefined]. *)

(** The options record handed to [request]: a field that the literal does
    not mention is [None]. *)
Record request := {
  req_url : string;
  req_method : option string;
  req_header : option (gmap string (option json));
  req_data : option (option json)
}.

Record state := {
  env : gmap string (option json);  (* the identifiers in scope *)
  url : string;
  queryString : list string;
  options : option request;
  returned : option request
}.

Section Meaning.

(** The global function [encodeURIComponent]. *)
Variable encodeURIComponent : option json → string.

(** The own properties of the caller's argument, a plain object, and
    the [BASE_URL] of the enclosing factory. *)
Variable params : gmap string json.
Variable BASE_URL : string.

(** An identifier that is not in the scope of the model has no value
    here: [None]. *)
Definition eval_fragment (e : gmap string (option json)) (f : fragment)
  : option string :=
  match f with
  | Text s => Some s
  | Interp x => key_of <$> e !! x
  | InterpEncoded x => encodeURIComponent <$> e !! x
  end.

Fixpoint eval_template (e : gmap string (option json)) (t : list fragment)
  : option string :=
  match t with
  | [] => Some EmptyString
  | f :: r =>
      s ← eval_fragment e f;
      rest ← eval_template e r;
      Some (s +:+ rest)
  end.

Definition eval_expr (e : gmap string (option json)) (x : expr)
  : option (option json) :=
  match x with
  | Ident x => e !! x
  | Quoted s => Some (Some (JStr s))
  end.

(** An object literal is evaluated entry by entry; a later entry with
    the same key replaces the earlier one. *)
Fixpoint eval_header (e : gmap string (option json))
    (fields : list (string * expr)) (h : gmap string (option json))
  : option (gmap string (option json)) :=
  match fields with
  | [] => Some h
  | (k, x) :: r =>
      v ← eval_expr e x;
      eval_header e r (<[k := v]> h)
  end.

Definition eval_entry (st : state) (o : request) (x : entry) : option request :=
  match x with
  | EntryUrl =>
      Some {| req_url := url st; req_method := req_method o;
              req_header := req_header o; req_data := req_data o |}
  | EntryMethod verb =>
      Some {| req_url := req_url o; req_method := Some verb;
              req_header := req_header o; req_data := req_data o |}
  | EntryHeader fields =>
      h ← eval_header (env st) fields ∅;
      Some {| req_url := req_url o; req_method := req_method o;
              req_header := Some h; req_data := req_data o |}
  | EntryData =>
      v ← env st !! "requestData";
      Some {| req_url := req_url o; req_method := req_method o;
              req_header := req_header o; req_data := Some v |}
  end.

Fixpoint eval_entries (st : state) (o : request) (l : list entry)
  : option request :=
  match l with
  | [] => Some o
  | x :: r => o' ← eval_entry st o x; eval_entries st o' r
  end.

Definition empty_request : request :=
  {| req_url := EmptyString; req_method := None;
     req_header := None; req_data := None |}.

(** [const { x, y = undefined, } = params;]: each name is bound to the
    property of that name; the default [undefined] changes nothing. *)
Definition bind_fields (fields : list (string * bool))
    (e : gmap string (option json)) : gmap string (option json) :=
  foldl (fun e f => <[f.1 := params !! f.1]> e) e fields.

Definition exec_stmt (st : state) (s : stmt) : option state :=
  match s with
  | Destructure fields =>
      Some {| env := bind_fields fields (env st); url := url st;
              queryString := queryString st; options := options st;
              returned := returned st |}
  | LetUrl t =>
      u ← eval_template (env st) t;
      Some {| env := env st; url := u; queryString := queryString st;
              options := options st; returned := returned st |}
  | ConstQueryString =>
      Some {| env := env st; url := url st; queryString := [];
              options := options st; returned := returned st |}
  | PushIfDefined x t =>
      v ← env st !! x;
      match v with
      | Some _ =>
          pair ← eval_template (env st) t;
          Some {| env := env st; url := url st;
                  queryString := queryString st ++ [pair];
                  options := options st; returned := returned st |}
      | None => Some st
      end
  | AppendQuery =>
      match queryString st with
      | [] => Some st
      | _ =>
          Some {| env := env st;
                  url := url st +:+ "?" +:+ Str.join "&" (queryString st);
                  queryString := queryString st; options := options st;
                  returned := returned st |}
      end
  | ConstOptions entries =>
      o ← eval_entries st empty_request entries;
      Some {| env := env st; url := url st; queryString := queryString st;
              options := Some o; returned := returned st |}
  | ReturnRequest =>
      Some {| env := env st; url := url st; queryString := queryString st;
              options := options st; returned := options st |}
  end.

Fixpoint exec (st : state) (body : list stmt) : option state :=
  match body with
  | [] => Some st
  | s :: r => st' ← exec_stmt st s; exec st' r
  end.

(** The scope on entry.  Of the names of the enclosing scopes only the
    factory's [BASE_URL] is modelled. *)
Definition initial : state :=
  {| env := {[ "BASE_URL" := Some (JStr BASE_URL) ]}; url := EmptyString;
     queryString := []; options := None; returned := None |}.

(** The options record that a call of the method hands to [request];
    [None] when there is no such call, the method being rejected, or
    when the call throws instead. *)
Definition call (body : list stmt) : option request :=
  if accepted body then st ← exec initial body; returned st else None.



End Meaning.

(** The own properties of the client object after the assignments
    [client.name = function ...] have run in order: a later assignment
    to a name replaces the one before. *)
Definition createClient (methods : list (string * list stmt))
  : gmap string (list stmt) :=
  foldl (fun client m => <[m.1 := m.2]> client) ∅ methods.

(** [client.name = ...] assigns the property [name] when [name] is an
    identifier name (after a dot a reserved word is one too).  The model
    does not follow what the engine makes of another text in that place;
    with a hyphen in it, [client.get-x = ...] is an assignment to a
    difference, which the engine rejects. *)
Definition assignable (name : string) : bool := is_identifier name.

(** The client object that [createClient] returns; [None] when the
    module does not load. *)
Definition client_of (methods : list (string * list stmt))
  : option (gmap string (list stmt)) :=
  if forallb (fun m => assignable m.1 && accepted m.2) methods
  then Some (createClient methods)
  else None.

(** The name under which an operation is assigned, and the assignment
    emitted for it. *)
Definition derived_name (e : string * string * operation) : string :=
  let '(path, method, op) := e in functionName op method path.

Definition assignment (e : string * string * operation)
  : string * list stmt :=
  let '(path, method, op) := e in
  (functionName op method path, plan_operation path method op).

(** The assignments emitted for a document, in order. *)
Definition plan_module (spec : document) : list (string * list stmt) :=
  assignment <$> operations_of spec.

(** ** Reading the emitted text back *)


(** A path template seen as its pieces: literal text without an opening
    brace, and placeholders [{name}] whose name is not empty and has no
    closing brace. *)
Definition piece_ok (g : segment) : bool :=
  match g with
  | Literal t => negb (Str.includes "{" t)
  | PathParam n => negb (String.eqb n EmptyString) && negb (Str.includes "}" n)
  end.




(** An object schema: [type: object], or no [type] and some
    [properties]; the array case is tested first. *)
Definition is_object_schema (schema : json) : bool :=
  negb (is_str "array" (get schema "type"))
  && (is_str "object" (get schema "type")
      || (negb (truthy_opt (get schema "type"))
          && truthy_opt (get schema "properties"))).

(** ** Sample documents *)

Definition string_schema : json := JObj [("type", JStr "string")].
Definition integer_schema : json := JObj [("type", JStr "integer")].

(** A document whose [components.schemas] has [Foo], a string, and
    [Pet], an object with a property that refers to [Foo]. *)
Definition doc_foo : json :=
  JObj [("components",
         JObj [("schemas",
                JObj [("Foo", string_schema);
                      ("Pet",
                       JObj [("type", JStr "object");
                             ("required", JArr [JStr "id"]);
                             ("properties",
                              JObj [("id", integer_schema);
                                    ("tag", reference "#/components/schemas/Foo")])])])])].

Definition array_of_foo : json :=
  JObj [("type", JStr "array");
        ("items", reference "#/components/schemas/Foo")].

Definition array_of_strings : json :=
  JObj [("type", JStr "array"); ("items", string_schema)].

(** ** What a call of an emitted method amounts to *)






(** [encodeURIComponent] on the values whose text has unreserved
    characters only, which it leaves as they are. *)
Definition encode_plain (v : option json) : string := key_of v.

(** ** Sample operations *)

Definition query_parameter (name : string) (required : bool) : parameter :=
  {| param_name := name; param_in := "query"; param_required := required;
     param_schema := Some integer_schema; param_description := None |}.

Definition header_parameter (name : string) : parameter :=
  {| param_name := name; param_in := "header"; param_required := true;
     param_schema := Some string_schema; param_description := None |}.

(** [GET /moment/list] with the optional integer query parameters
    [lastId] and [size], and no [operationId]. *)
Definition moment_list : operation :=
  {| operationId := None; summary := Some "List moments";
     op_description := None;
     parameters := [query_parameter "lastId" false; query_parameter "size" false];
     requestBody := None;
     responses := [] |}.

Definition json_or_xml_body : request_body :=
  {| body_required := true; body_description := None;
     body_content := [("application/json", {| media_schema := None |});
                      ("application/xml", {| media_schema := None |})] |}.

(** A body operation with a header parameter. *)
Definition post_with_header (header : string) : operation :=
  {| operationId := Some "createPet"; summary := None; op_description := None;
     parameters := [header_parameter header];
     requestBody := Some json_or_xml_body;
     responses := [] |}.

Definition plain_operation (description : string) : operation :=
  {| operationId := None; summary := Some description; op_description := None;
     parameters := []; requestBody := None; responses := [] |}.

(** Two operations whose derived names collide: [GET /pets/list] and
    [GET /Pets/LIST] both give [getpetsList]. *)
Definition colliding_document : document :=
  {| doc_info := {| title := "Pets"; info_description := None; version := "1" |};
     doc_paths :=
       [("/pets/list", [("get", plain_operation "first")]);
        ("/Pets/LIST", [("get", plain_operation "second");
                        ("parameters", plain_operation "not an operation")])];
     doc_tree := JObj [] |}.

Definition no_operation_id : operation :=
  {| operationId := None; summary := None; op_description := None;
     parameters := []; requestBody := None; responses := [] |}.


(** Case analysis on the 256 characters. *)
Ltac each_char c := destruct c as [[] [] [] [] [] [] [] []]; vm_compute.

(** ** The driver

    [convertOpenApiToWxRequest] without its file accesses: it is given the
    parsed document and the [--base-url] option and returns the text that
    it writes to the output file.  An outcome other than [Done] is the
    branch of [catch], which prints the error and exits with status 1
    without writing anything. *)

(** [s.startsWith(prefix)] *)
Definition startsWith (prefix s : string) : bool :=
  match strip_prefix prefix s with
  | Some _ => true
  | None => false
  end.

(** [!spec.openapi || !spec.openapi.startsWith('3.0')] is false: a truthy
    [openapi] that is not a string has no [startsWith] method, and the
    call throws as well. *)
Definition versionSupported (tree : json) : bool :=
  match get tree "openapi" with
  | Some (JStr v) => startsWith "3.0" v
  | _ => false
  end.

(** [spec.servers && spec.servers[0] && spec.servers[0].url]: the first
    falsy operand, else the last one. *)
Definition firstServerUrl (tree : json) : option json :=
  match get tree "servers" with
  | None => None
  | Some servers =>
      if negb (truthy servers) then Some servers
      else match get servers "0" with
           | None => None
           | Some server =>
               if negb (truthy server) then Some server
               else get server "url"
           end
  end.

(** [a || b]: the first operand when it is truthy, else the second. *)
Definition js_or (a b : option json) : option json :=
  if truthy_opt a then a else b.

(** [options.baseUrl || (spec.servers && ...) || ''] *)
Definition chooseBaseUrl (optionBaseUrl : option string) (tree : json) : json :=
  default (JStr EmptyString)
    (js_or (JStr <$> optionBaseUrl)
       (js_or (firstServerUrl tree) (Some (JStr EmptyString)))).

(** The header template converts [baseUrl] to a string when it splices
    it in. *)
Definition convertOpenApiToWxRequest (fuel : nat)
    (optionBaseUrl : option string) (spec : document) : outcome string :=
  (* Validate OpenAPI version *)
  if negb (versionSupported (doc_tree spec)) then Thrown
  else
    (* Extract base URL from spec or command line option *)
    let baseUrl := chooseBaseUrl optionBaseUrl (doc_tree spec) in
    (* Generate the output JavaScript code *)
    generateJavaScriptModule fuel spec (js_to_string baseUrl).

(** ** Further notions used in the properties *)

(** The name with every hyphen turned into an underscore. *)
Definition hyphens_to_underscores : string → string :=
  Str.map (fun c => if Ascii.eqb c "-" then "_"%char else c).

(** The run of [resolveSchema] as a derivation: which branch is taken at
    each reference, without a bound on their number. *)
Inductive resolves (spec : json) : option json → json → list string → Prop :=
| resolves_absent :
    resolves spec None any_schema []
| resolves_falsy node :
    truthy node = false →
    resolves spec (Some node) any_schema []
| resolves_inline node :
    truthy node = true →
    truthy_opt (get node "$ref") = false →
    resolves spec (Some node) node []
| resolves_missing node pointer :
    get node "$ref" = Some (JStr pointer) →
    pointer ≠ EmptyString →
    walk spec (refPath_of pointer) = None →
    resolves spec (Some node) any_schema
      ["Could not resolve reference: " +:+ pointer]
| resolves_hop node pointer target result log :
    get node "$ref" = Some (JStr pointer) →
    pointer ≠ EmptyString →
    walk spec (refPath_of pointer) = Some target →
    resolves spec (Some target) result log →
    resolves spec (Some node) result log.


(** The names bound by the destructuring of the emitted method. *)
Definition bound_names (pathParams queryParams headerParams : list parameter)
    (requestBody : option request_body) : list string :=
  (plan_fields pathParams queryParams headerParams requestBody).*1.

(** The text that follows the method definitions in the module. *)
Definition module_footer : string :=
  nl +:+ nl +:+ "  return client;" +:+ nl +:+ "}" +:+ nl +:+ nl
  +:+ "// Export the client factory function" +:+ nl
  +:+ "module.exports = { createClient };" +:+ nl.

(** A document whose only schema refers to itself. *)
Definition doc_cycle : json :=
  JObj [("components",
         JObj [("schemas",
                JObj [("Node", reference "#/components/schemas/Node")])])].

(** A Swagger-2 style schema with [required: true]. *)
Definition required_true_schema : json :=
  JObj [("type", JStr "object");
        ("required", JBool true);
        ("properties", JObj [("id", integer_schema)])].

(** A computation that prints no diagnostic. *)
Definition silent {A} (m : outcome A) : Prop :=
  ∀ a log, m = Done a log → log = [].

(** An operation whose request body declares no content type, one whose
    [200] response has an empty [content], and a document with both. *)
Definition empty_body_operation : operation :=
  {| operationId := Some "createPet"; summary := None; op_description := None;
     parameters := [];
     requestBody := Some {| body_required := true; body_description := None;
                            body_content := [] |};
     responses := [] |}.

Definition empty_response_operation : operation :=
  {| operationId := Some "listPets"; summary := None; op_description := None;
     parameters := []; requestBody := None;
     responses := [("200", {| resp_description := Some "ok";
                              resp_content := Some [] |})] |}.

Definition empty_content_document : document :=
  {| doc_info := {| title := "Pets"; info_description := None; version := "1" |};
     doc_paths := [("/pets", [("post", empty_body_operation);
                              ("get", empty_response_operation)])];
     doc_tree := JObj [] |}.





(** The diagnostic of [resolveSchema]. *)
Definition is_reference_warning (msg : string) : bool :=
  startsWith "Could not resolve reference: " msg.

(** A computation that prints at most [n] diagnostics, each of them the
    diagnostic of [resolveSchema]. *)
Definition warns_at_most {A} (n : nat) (m : outcome A) : Prop :=
  forallb is_reference_warning (log_of m) = true
  ∧ (length (log_of m) <= n)%nat.

(** The operation with its path, query and header parameters only, one
    kind after the other. *)
Definition regrouped (op : operation) : operation :=
  {| operationId := operationId op; summary := summary op;
     op_description := op_description op;
     parameters := paramsIn "path" op ++ paramsIn "query" op
                   ++ paramsIn "header" op;
     requestBody := requestBody op; responses := responses op |}.

(** A document of version [3.0.1] with two servers and no path. *)
Definition two_servers : document :=
  {| doc_info := {| title := "Pets"; info_description := None; version := "1" |};
     doc_paths := [];
     doc_tree :=
       JObj [("openapi", JStr "3.0.1");
             ("servers", JArr [JObj [("url", JStr "https://a.test")];
                               JObj [("url", JStr "https://b.test")]])] |}.

(** ** The methods and modules within the model *)

(** The members that every object inherits from [Object.prototype]:
    reading one of these names from an object that has no such property
    of its own gives the inherited member, not [undefined]. *)
Definition object_prototype_names : list string :=
  ["constructor"; "hasOwnProperty"; "isPrototypeOf"; "propertyIsEnumerable";
   "toLocaleString"; "toString"; "valueOf"; "__proto__";
   "__defineGetter__"; "__defineSetter__"; "__lookupGetter__";
   "__lookupSetter__"].

(** The names that the emitted method declares or reads. *)
Definition method_names : list string :=
  ["params"; "url"; "queryString"; "options"; "undefined";
   "encodeURIComponent"; "request"].

(** The words that are reserved, or may not be bound, in strict code. *)
Definition strict_reserved_words : list string :=
  ["implements"; "interface"; "package"; "private"; "protected"; "public";
   "static"; "yield"; "await"; "eval"; "arguments"].

(** A name that the destructuring can bind without changing what the
    rest of the method means, and that [params] does not inherit. *)
Definition plain_name (x : string) : bool :=
  is_identifier x
  && negb (bool_decide (x ∈ reserved_words ++ strict_reserved_words
                            ++ method_names ++ object_prototype_names)).

(** A printable ASCII character other than the quotes, the backquote,
    the backslash and the dollar sign: it stands for itself in a quoted
    string and in a template. *)
Definition plain_char (c : ascii) : bool :=
  ((32 <=? Char.code c) && (Char.code c <=? 126))%N
  && negb (bool_decide (Char.code c ∈ [34; 36; 39; 92; 96]%N)).

Definition plain_text : string → bool := Str.forallb plain_char.

(** A piece of the URL template that is what it looks like: plain text,
    or the interpolation of a name bound by the destructuring. *)
Definition fragment_in_model (bound : list string) (f : fragment) : bool :=
  match f with
  | Text t => plain_text t
  | Interp x => bool_decide (x ∈ bound)
  | InterpEncoded _ => false
  end.

(** The operations whose method is what it looks like.  (In an object
    literal the key [__proto__] sets the prototype and adds no entry, and
    so does an assignment to the property of that name.) *)
Definition method_in_model (path method : string) (op : operation) : bool :=
  let bound :=
    bound_names (paramsIn "path" op) (paramsIn "query" op)
      (paramsIn "header" op) (requestBody op) in
  is_identifier (functionName op method path)
  && negb (String.eqb (functionName op method path) "__proto__")
  && bool_decide (NoDup bound)
  && forallb plain_name bound
  && forallb (fragment_in_model bound) (scanPath EmptyString path)
  && plain_text method
  && forallb (fun p => plain_text (param_name p))
       (paramsIn "query" op ++ paramsIn "header" op)
  && forallb (fun p => negb (String.eqb (param_name p) "__proto__"))
       (paramsIn "header" op)
  && match requestBody op with
     | Some body => plain_text (primaryContentType (body_content body))
     | None => true
     end.

(** The text without its last character. *)
Fixpoint drop_last (s : string) : string :=
  match s with
  | EmptyString => EmptyString
  | String c t =>
      match t with
      | EmptyString => EmptyString
      | String _ _ => String c (drop_last t)
      end
  end.

(** Text that does not end the comment it is written in. *)
Definition comment_text (s : string) : bool :=
  negb (is_substring "*/" s).

(** A documentation block that is one comment: it is closed by its last
    two characters and not before. *)
Definition doc_comment_ok (jsDoc : string) : bool :=
  comment_text (drop_last jsDoc).

(** The documentation block of an operation. *)
Definition method_doc (fuel : nat) (spec : json) (op : operation)
  : outcome string :=
  generateJSDoc fuel spec op (paramsIn "path" op) (paramsIn "query" op)
    (paramsIn "header" op) (requestBody op).

Definition header_in_model (spec : document) (baseUrl : string) : bool :=
  comment_text (title (doc_info spec))
  && comment_text (or_else (info_description (doc_info spec)) EmptyString)
  && comment_text (version (doc_info spec))
  && plain_text baseUrl.

(** The documents whose module is what it looks like: every method is
    within the model, is assigned to an identifier name and is preceded
    by a documentation block that is one comment. *)
Definition module_in_model (fuel : nat) (spec : document) (baseUrl : string)
  : bool :=
  header_in_model spec baseUrl
  && forallb (fun e : string * string * operation =>
                let '(path, method, op) := e in
                method_in_model path method op
                && match value_of (method_doc fuel (doc_tree spec) op) with
                   | Some jsDoc => doc_comment_ok jsDoc
                   | None => false
                   end)
       (operations_of spec).


(** ASCII text. *)
Definition ascii_text : string → bool :=
  Str.forallb (fun c => (Char.code c <? 128)%N).

(** The text of a method in the module: its documentation block and its
    assignment. *)
Definition method_text (jsDoc path method : string) (op : operation)
  : string :=
  jsDoc +:+ nl
  +:+ render_method (functionName op method path)
        (plan_operation path method op).


(** [GET /search] with a query parameter named [url]. *)
Definition search_by_url : operation :=
  {| operationId := None; summary := None; op_description := None;
     parameters := [query_parameter "url" false];
     requestBody := None; responses := [] |}.


(** Two operations that derive the name [getuser-profile]. *)
Definition hyphen_document : document :=
  {| doc_info := {| title := "Users"; info_description := None; version := "1" |};
     doc_paths :=
       [("/user-profile", [("get", plain_operation "first")]);
        ("/User-Profile", [("get", plain_operation "second")])];
     doc_tree := JObj [] |}.



(** * Properties *)

(** ** Characters and strings *)

Lemma word_upper_of_alnum c :
  Char.is_alnum c = true → Char.is_word (Char.toUpperCase c) = true.
Proof. each_char c; intros; congruence. Qed.

Lemma word_not_hyphen c : Char.is_word c = true → Ascii.eqb c "-" = false.
Proof. each_char c; intros; congruence. Qed.

Lemma sep_word_underscore c :
  Char.is_sep c = true → Char.is_word c = true → Ascii.eqb c "_" = true.
Proof. each_char c; intros; congruence. Qed.

Lemma digit_not_sep c : Char.is_digit c = true → Char.is_sep c = false.
Proof. each_char c; intros; congruence. Qed.

Lemma digit_upper c : Char.is_digit c = true → Char.toUpperCase c = c.
Proof. each_char c; intros; congruence. Qed.

Lemma str_app_cons c (s t : string) : String c s +:+ t = String c (s +:+ t).
Proof. reflexivity. Qed.

Lemma str_app_nil_l (s : string) : EmptyString +:+ s = s.
Proof. reflexivity. Qed.

Lemma str_app_nil_r (s : string) : s +:+ EmptyString = s.
Proof. induction s as [|c s IH]; [done|]. by rewrite str_app_cons, IH. Qed.

Lemma str_app_assoc (a b c : string) : (a +:+ b) +:+ c = a +:+ b +:+ c.
Proof. induction a as [|x a IH]; [done|]. by rewrite !str_app_cons, IH. Qed.

Lemma str_app_length (a b : string) :
  String.length (a +:+ b) = String.length a + String.length b.
Proof.
  induction a as [|x a IH]; [done|]. rewrite str_app_cons. simpl.
  by rewrite IH.
Qed.

Lemma forallb_app p (a b : string) :
  Str.forallb p (a +:+ b) = Str.forallb p a && Str.forallb p b.
Proof.
  induction a as [|x a IH]; [done|]. rewrite str_app_cons. simpl.
  by rewrite IH, andb_assoc.
Qed.

Lemma includes_app c (a b : string) :
  Str.includes c (a +:+ b) = Str.includes c a || Str.includes c b.
Proof.
  induction a as [|x a IH]; [done|]. rewrite str_app_cons. simpl.
  by rewrite IH, orb_assoc.
Qed.

(** ** NameNormalizer *)

Lemma replace_invalid_word s :
  Str.forallb Char.is_word (replace_invalid s) = true.
Proof.
  unfold replace_invalid.
  induction s as [|c s IH]; simpl; [done|].
  rewrite IH, andb_true_r.
  destruct (Char.is_word c) eqn:E; [done|reflexivity].
Qed.

Lemma replace_invalid_fixed s :
  Str.forallb Char.is_word s = true → replace_invalid s = s.
Proof.
  unfold replace_invalid.
  induction s as [|c s IH]; simpl; [done|].
  intros [Hc Hs]%andb_true_iff. by rewrite Hc, IH.
Qed.

Lemma camelCase_unfold c d t :
  camelCase (String c (String d t)) =
  if Char.is_sep c && Char.is_alnum d
  then String (Char.toUpperCase d) (camelCase t)
  else String c (camelCase (String d t)).
Proof. reflexivity. Qed.

(** Induction that follows the scan of [camelCase]: two characters at a
    time. *)
Lemma string_pair_ind (P : string → Prop) :
  P EmptyString →
  (∀ c, P (String c EmptyString)) →
  (∀ c d t, P t → P (String d t) → P (String c (String d t))) →
  ∀ s, P s.
Proof.
  intros H0 H1 H2 s. cut (P s ∧ ∀ c, P (String c s)); [tauto|].
  induction s as [|d t [IHt IHc]]; split; auto.
Qed.

Lemma camelCase_word s :
  Str.forallb Char.is_word s = true →
  Str.forallb Char.is_word (camelCase s) = true.
Proof.
  induction s as [|c|c d t IHt IHdt] using string_pair_ind; [done..|].
  intros H. rewrite camelCase_unfold.
  change (Str.forallb Char.is_word (String c (String d t)))
    with (Char.is_word c && Str.forallb Char.is_word (String d t)) in H.
  apply andb_true_iff in H as [Hc Hdt].
  destruct (Char.is_sep c && Char.is_alnum d) eqn:E.
  - apply andb_true_iff in E as [_ Hd].
    change (Char.is_word (Char.toUpperCase d)
            && Str.forallb Char.is_word (camelCase t) = true).
    rewrite (word_upper_of_alnum _ Hd). simpl.
    apply IHt. simpl in Hdt. by apply andb_true_iff in Hdt as [_ ?].
  - change (Char.is_word c
            && Str.forallb Char.is_word (camelCase (String d t)) = true).
    rewrite Hc. simpl. by apply IHdt.
Qed.

(** Every character of a normalized name is a letter, a digit, an
    underscore or a dollar sign. *)
Lemma normalizeParamName_word name :
  Str.forallb Char.is_word (normalizeParamName name) = true.
Proof.
  unfold normalizeParamName.
  assert (Str.forallb Char.is_word
            (if Str.starts_with_digit (replace_invalid name)
             then String "_" (replace_invalid name)
             else replace_invalid name) = true) as H.
  { destruct (Str.starts_with_digit _); simpl; apply replace_invalid_word. }
  destruct (Str.includes "-" name || Str.includes "_" name);
    [by apply camelCase_word | done].
Qed.

Lemma camelCase_fixed s : has_camel_match s = false → camelCase s = s.
Proof.
  induction s as [|c|c d t IHt IHdt] using string_pair_ind; [done..|].
  intros H. rewrite camelCase_unfold.
  change (has_camel_match (String c (String d t)))
    with ((Char.is_sep c && Char.is_alnum d) || has_camel_match (String d t))
    in H.
  apply orb_false_iff in H as [-> H]. by rewrite IHdt.
Qed.

Lemma camelCase_length s :
  (String.length (camelCase s) <= String.length s)%nat.
Proof.
  induction s as [|c|c d t IHt IHdt] using string_pair_ind; [done..|].
  rewrite camelCase_unfold.
  destruct (Char.is_sep c && Char.is_alnum d); simpl in *; lia.
Qed.

Lemma camelCase_shorter s :
  has_camel_match s = true →
  (String.length (camelCase s) < String.length s)%nat.
Proof.
  induction s as [|c|c d t IHt IHdt] using string_pair_ind; [done..|].
  intros H. rewrite camelCase_unfold.
  change (has_camel_match (String c (String d t)))
    with ((Char.is_sep c && Char.is_alnum d) || has_camel_match (String d t))
    in H.
  destruct (Char.is_sep c && Char.is_alnum d).
  - pose proof (camelCase_length t). simpl. lia.
  - simpl in H. specialize (IHdt H). simpl in *. lia.
Qed.

Lemma word_no_hyphen s :
  Str.forallb Char.is_word s = true → Str.includes "-" s = false.
Proof.
  induction s as [|c s IH]; simpl; [done|].
  intros [Hc Hs]%andb_true_iff. by rewrite (word_not_hyphen _ Hc), IH.
Qed.

Lemma camel_match_underscore s :
  Str.forallb Char.is_word s = true → has_camel_match s = true →
  Str.includes "_" s = true.
Proof.
  induction s as [|c|c d t IHt IHdt] using string_pair_ind; [done..|].
  intros Hw H.
  change (Str.forallb Char.is_word (String c (String d t)))
    with (Char.is_word c && Str.forallb Char.is_word (String d t)) in Hw.
  apply andb_true_iff in Hw as [Hc Hdt].
  change (has_camel_match (String c (String d t)))
    with ((Char.is_sep c && Char.is_alnum d) || has_camel_match (String d t))
    in H.
  change (Str.includes "_" (String c (String d t)))
    with (Ascii.eqb c "_" || Str.includes "_" (String d t)).
  apply orb_true_iff in H as [[Hs _]%andb_true_iff | H].
  - by rewrite (sep_word_underscore _ Hs Hc).
  - rewrite (IHdt Hdt H). apply orb_true_r.
Qed.

(** A string of word characters that does not start with a digit is a
    fixed point of the normalizer exactly when the camel-case pattern
    does not occur in it. *)
Lemma normalizeParamName_fixed_iff y :
  Str.forallb Char.is_word y = true →
  Str.starts_with_digit y = false →
  normalizeParamName y = y ↔ has_camel_match y = false.
Proof.
  intros Hw Hd. unfold normalizeParamName.
  rewrite (replace_invalid_fixed _ Hw), Hd, (word_no_hyphen _ Hw). simpl.
  split.
  - intros Heq. destruct (has_camel_match y) eqn:Hm; [|done].
    rewrite (camel_match_underscore _ Hw Hm) in Heq.
    pose proof (camelCase_shorter _ Hm) as Hlt. rewrite Heq in Hlt. lia.
  - intros Hm. rewrite (camelCase_fixed _ Hm). by destruct (Str.includes _ _).
Qed.

(** C1 (as amended).  Normalizing twice gives the same as normalizing
    once exactly for the names whose normalized form has no underscore
    directly followed by a letter or a digit, provided that the normalized
    form does not start with a digit. *)
Theorem normalizeParamName_idempotent_iff (x : string) :
  Str.starts_with_digit (normalizeParamName x) = false →
  normalizeParamName (normalizeParamName x) = normalizeParamName x
  ↔ has_camel_match (normalizeParamName x) = false.
Proof.
  intros Hd. apply normalizeParamName_fixed_iff; [|done].
  apply normalizeParamName_word.
Qed.

Lemma normalizeParamName_idempotent_iff_witness :
  Str.starts_with_digit (normalizeParamName "user-id") = false
  ∧ (normalizeParamName (normalizeParamName "user-id")
     = normalizeParamName "user-id"
     ↔ has_camel_match (normalizeParamName "user-id") = false).
Proof.
  split; [reflexivity|].
  apply (normalizeParamName_idempotent_iff "user-id"). reflexivity.
Defined.

(** C1 as stated fails: a blank becomes an underscore, which a second
    pass collapses. *)
Lemma normalizeParamName_not_idempotent :
  normalizeParamName (normalizeParamName "a b") ≠ normalizeParamName "a b".
Proof. vm_compute. discriminate. Qed.

Example normalize_twice_a_b :
  normalizeParamName "a b" = "a_b" ∧ normalizeParamName "a_b" = "aB".
Proof. split; reflexivity. Qed.

(** C2.  The source means to "ensure the name doesn't start with a
    number", but the camel-case step runs after the underscore has been
    prepended and removes it again: the normalized form of [-1] is [1],
    which is not an identifier. *)
Theorem normalizeParamName_leading_digit :
  normalizeParamName "-1" = "1"
  ∧ Str.starts_with_digit (normalizeParamName "-1") = true
  ∧ is_identifier (normalizeParamName "-1") = false.
Proof. repeat split; reflexivity. Qed.

Example normalize_user_id : normalizeParamName "user-id" = "userId".
Proof. reflexivity. Qed.
Example normalize_header : normalizeParamName "X-Request-Id" = "XRequestId".
Proof. reflexivity. Qed.
Example normalize_2fa : normalizeParamName "2fa" = "_2fa".
Proof. reflexivity. Qed.
Example normalize_1_a : normalizeParamName "1_a" = "1A".
Proof. reflexivity. Qed.
Example normalize_empty : normalizeParamName EmptyString = EmptyString.
Proof. reflexivity. Qed.

(** ** Path templates *)

Lemma replacePlaceholders_cons f c s :
  Ascii.eqb c "{" = false →
  replacePlaceholders f (String c s) = String c (replacePlaceholders f s).
Proof. intros H. simpl. by rewrite H. Qed.

Lemma replacePlaceholders_literal f t s :
  Str.includes "{" t = false →
  replacePlaceholders f (t +:+ s) = t +:+ replacePlaceholders f s.
Proof.
  induction t as [|c t IH]; [done|]. simpl Str.includes.
  intros [Hc Ht]%orb_false_iff. rewrite !str_app_cons.
  by rewrite replacePlaceholders_cons, IH.
Qed.

Lemma inPlaceholder_name f acc n s :
  Str.includes "}" n = false → acc +:+ n ≠ EmptyString →
  inPlaceholder f acc (n +:+ String "}" s)
  = f (acc +:+ n) +:+ replacePlaceholders f s.
Proof.
  revert acc. induction n as [|c n IH]; intros acc Hn Hne.
  - rewrite str_app_nil_r in *. rewrite str_app_nil_l. simpl.
    by destruct acc.
  - simpl in Hn. apply orb_false_iff in Hn as [Hc Hn].
    rewrite str_app_cons. simpl. rewrite Hc.
    rewrite IH; [|done|].
    + by rewrite str_app_assoc.
    + by rewrite str_app_assoc.
Qed.

Lemma replacePlaceholders_param f n s :
  n ≠ EmptyString → Str.includes "}" n = false →
  replacePlaceholders f (("{" +:+ n +:+ "}") +:+ s)
  = f n +:+ replacePlaceholders f s.
Proof.
  intros Hne Hn.
  change (inPlaceholder f EmptyString ((n +:+ "}") +:+ s) = f n +:+ replacePlaceholders f s).
  rewrite str_app_assoc.
  change ("}" +:+ s) with (String "}" s).
  by rewrite inPlaceholder_name.
Qed.

Lemma piece_ok_param n :
  piece_ok (PathParam n) = true →
  n ≠ EmptyString ∧ Str.includes "}" n = false.
Proof.
  simpl. intros [H1 H2]%andb_true_iff. split.
  - intros ->. done.
  - by apply negb_true_iff.
Qed.

(** One piece of the template is replaced at a time. *)
Lemma replacePlaceholders_piece f g s :
  piece_ok g = true →
  replacePlaceholders f (segment_source g +:+ s)
  = match g with Literal t => t | PathParam n => f n end
    +:+ replacePlaceholders f s.
Proof.
  destruct g as [t|n]; intros H.
  - apply replacePlaceholders_literal. simpl in H. by apply negb_true_iff.
  - apply piece_ok_param in H as [? ?]. by apply replacePlaceholders_param.
Qed.

Lemma emit_each_cons {A} (f : A → string) x l :
  emit_each f (x :: l) = f x +:+ emit_each f l.
Proof. reflexivity. Qed.

Lemma emit_each_app {A} (f : A → string) l k :
  emit_each f (l ++ k) = emit_each f l +:+ emit_each f k.
Proof.
  induction l as [|x l IH]; [done|].
  simpl app. by rewrite !emit_each_cons, IH, str_app_assoc.
Qed.

Lemma emit_each_fmap {A B} (g : A → B) (f : B → string) l :
  emit_each f (g <$> l) = emit_each (f ∘ g) l.
Proof.
  induction l as [|x l IH]; [done|].
  by rewrite fmap_cons, !emit_each_cons, IH.
Qed.

Lemma emit_each_ext {A} (f g : A → string) l :
  (∀ x, f x = g x) → emit_each f l = emit_each g l.
Proof.
  intros H. induction l as [|x l IH]; [done|].
  by rewrite !emit_each_cons, IH, H.
Qed.


(** The same scan yields the text of [pathTemplate] and the fragments of
    [scanPath], whatever the path. *)
Lemma scanPath_render s :
  (∀ text, render_template (scanPath text s)
           = text +:+ pathTemplate s)
  ∧ (∀ text acc,
       render_template (scanPlaceholder text acc s)
       = text +:+ inPlaceholder
           (fun n => "${" +:+ normalizeParamName n +:+ "}") acc s).
Proof.
  unfold pathTemplate.
  induction s as [|c s [IH1 IH2]]; split.
  - reflexivity.
  - intros text acc. simpl scanPlaceholder. simpl inPlaceholder.
    unfold render_template. rewrite emit_each_cons.
    simpl render_fragment. unfold emit_each. simpl foldr.
    by rewrite str_app_nil_r.
  - intros text. simpl. destruct (Ascii.eqb c "{").
    + apply IH2.
    + rewrite IH1. by rewrite str_app_assoc.
  - intros text acc. simpl. destruct (Ascii.eqb c "}").
    + destruct acc as [|a acc].
      * rewrite IH1. by rewrite str_app_assoc.
      * unfold render_template in *. rewrite !emit_each_cons.
        rewrite IH1. simpl render_fragment.
        by rewrite str_app_nil_l.
    + apply IH2.
Qed.

Lemma render_scanPath path :
  render_template (scanPath EmptyString path) = pathTemplate path.
Proof. apply (proj1 (scanPath_render path)). Qed.

(** ** OperationPlanner: the derived method name *)

Lemma join_cons2 sep p q r :
  Str.join sep (p :: q :: r) = p +:+ sep +:+ Str.join sep (q :: r).
Proof. reflexivity. Qed.

Lemma segment_ok_piece g : segment_ok g = true → piece_ok g = true.
Proof.
  destruct g as [t|n]; simpl.
  - by intros [_ ?]%andb_true_iff.
  - intros [[-> _]%andb_true_iff ->]%andb_true_iff. done.
Qed.

Lemma segment_text_no_slash g :
  segment_ok g = true → Str.includes "/" (segment_text g) = false.
Proof.
  destruct g as [t|n]; simpl.
  - intros [H _]%andb_true_iff. by apply negb_true_iff.
  - intros [[_ H]%andb_true_iff _]%andb_true_iff. by apply negb_true_iff.
Qed.

Lemma replacePlaceholders_segment g s :
  segment_ok g = true →
  replacePlaceholders (fun name => name) (segment_source g +:+ s)
  = segment_text g +:+ replacePlaceholders (fun name => name) s.
Proof.
  intros H. rewrite replacePlaceholders_piece by by apply segment_ok_piece.
  by destruct g.
Qed.

(** Removing the braces of a template gives its segments' texts. *)
Lemma cleanPath_segments segs :
  forallb segment_ok segs = true →
  replacePlaceholders (fun name => name) (Str.join "/" (segment_source <$> segs))
  = Str.join "/" (segment_text <$> segs).
Proof.
  induction segs as [|g segs IH]; [done|]. simpl forallb.
  intros [Hg Hsegs]%andb_true_iff. destruct segs as [|g' segs].
  - simpl. rewrite <- (str_app_nil_r (segment_source g)).
    rewrite replacePlaceholders_segment by done. simpl.
    by rewrite str_app_nil_r.
  - rewrite !fmap_cons, !join_cons2.
    rewrite replacePlaceholders_segment by done.
    change ("/" +:+ Str.join "/" (segment_source g' :: (segment_source <$> segs)))
      with (String "/" (Str.join "/" (segment_source <$> g' :: segs))).
    rewrite replacePlaceholders_cons by done.
    by rewrite IH.
Qed.

Lemma split_nonempty c s : Str.split c s ≠ [].
Proof.
  induction s as [|d s IH]; simpl; [done|].
  destruct (Ascii.eqb d c); [done|]. by destruct (Str.split c s).
Qed.

Lemma split_no_separator c t :
  Str.includes c t = false → Str.split c t = [t].
Proof.
  induction t as [|d t IH]; simpl; [done|].
  intros [-> Ht]%orb_false_iff. by rewrite IH.
Qed.

Lemma split_app_separator c t s :
  Str.includes c t = false →
  Str.split c (t +:+ String c s) = t :: Str.split c s.
Proof.
  induction t as [|d t IH]; simpl.
  - intros _. rewrite ?str_app_nil_l. simpl. by rewrite Ascii.eqb_refl.
  - intros [Hd Ht]%orb_false_iff. rewrite ?str_app_cons. simpl.
    by rewrite Hd, IH.
Qed.

Lemma split_join c part parts :
  forallb (fun t => negb (Str.includes c t)) (part :: parts) = true →
  Str.split c (Str.join (String c EmptyString) (part :: parts)) = part :: parts.
Proof.
  revert part. induction parts as [|q parts IH]; intros part; simpl forallb.
  - intros [H _]%andb_true_iff. apply negb_true_iff in H.
    by apply split_no_separator.
  - intros [H Hrest]%andb_true_iff. apply negb_true_iff in H.
    rewrite join_cons2.
    change (String c EmptyString +:+ Str.join (String c EmptyString) (q :: parts))
      with (String c (Str.join (String c EmptyString) (q :: parts))).
    rewrite split_app_separator by done. by rewrite IH.
Qed.

Lemma camelCasePart_later i part :
  camelCasePart (S i) part = capitalize part.
Proof. by destruct part. Qed.

Lemma imap_camelCasePart part parts :
  imap camelCasePart (part :: parts)
  = Str.toLowerCase part :: (capitalize <$> parts).
Proof.
  simpl. f_equal. rewrite <- (imap_const capitalize).
  apply imap_ext. intros i x _. apply camelCasePart_later.
Qed.

Lemma segment_texts_no_slash segs :
  forallb segment_ok segs = true →
  forallb (fun t => negb (Str.includes "/" t)) (segment_text <$> segs) = true.
Proof.
  induction segs as [|x l IH]; [done|]. rewrite fmap_cons. simpl forallb.
  intros [Hx Hl]%andb_true_iff.
  by rewrite (segment_text_no_slash _ Hx), IH.
Qed.

Lemma strip_leading_slash_slash s : strip_leading_slash (String "/" s) = s.
Proof. reflexivity. Qed.

Lemma derived_name_of_segments method g segs :
  forallb segment_ok (g :: segs) = true →
  generateFunctionNameFromPath method (path_of_segments (g :: segs))
  = Str.toLowerCase method
    +:+ Str.join EmptyString
          (Str.toLowerCase (segment_text g)
           :: (capitalize <$> (segment_text <$> segs))).
Proof.
  intros Hok. unfold generateFunctionNameFromPath, path_of_segments.
  rewrite strip_leading_slash_slash, cleanPath_segments by done.
  rewrite fmap_cons, split_join, imap_camelCasePart; [done|].
  by apply (segment_texts_no_slash (g :: segs)).
Qed.

(** C3 (as amended).  The method name is the [operationId] when there is
    a non-empty one; otherwise it is the lower-cased HTTP method followed
    by the segments of the path template, braces removed: the first
    segment lower-cased, every later segment with its first letter
    capitalised and its remaining characters lower-cased. *)
Theorem functionName_of_segments (op : operation) (method : string)
    (g : segment) (segs : list segment) :
  forallb segment_ok (g :: segs) = true →
  functionName op method (path_of_segments (g :: segs))
  = let derived :=
      Str.toLowerCase method
      +:+ Str.join EmptyString
            (Str.toLowerCase (segment_text g)
             :: (capitalize <$> (segment_text <$> segs))) in
    match operationId op with
    | Some id => if String.eqb id EmptyString then derived else id
    | None => derived
    end.
Proof.
  intros Hok. unfold functionName, or_else.
  by rewrite derived_name_of_segments.
Qed.

Lemma functionName_of_segments_witness :
  functionName no_operation_id "GET"
    (path_of_segments [Literal "users"; PathParam "userId"; Literal "postList"])
  = "getusersUseridPostlist".
Proof.
  rewrite (functionName_of_segments no_operation_id "GET" (Literal "users")
             [PathParam "userId"; Literal "postList"]); reflexivity.
Defined.

(** C3 as stated fails on its own example: the first segment is
    lower-cased, not capitalised. *)
Lemma functionName_moment_list :
  functionName no_operation_id "get" "/moment/list" ≠ "getMomentList".
Proof. vm_compute. discriminate. Qed.

Example moment_list_derived_name :
  functionName no_operation_id "get" "/moment/list" = "getmomentList".
Proof. reflexivity. Qed.

(** The remaining characters of a later segment are lower-cased, where the
    wording of the specification leaves them unchanged. *)
Example derivedName_spec_differs :
  generateFunctionNameFromPath "get" "/moment/listAll" = "getmomentListall"
  ∧ derivedName_spec "get" "/moment/listAll" = "getmomentListAll".
Proof. split; reflexivity. Qed.

(** ** URL construction *)










Example urlTemplate_user_posts :
  urlTemplate "/users/{user-id}/posts/{postId}"
  = "`${BASE_URL}/users/${userId}/posts/${postId}`".
Proof. reflexivity. Qed.

(** ** The document tree *)

Lemma string_of_nat_digit i :
  Str.starts_with_digit (string_of_nat i) = true.
Proof.
  unfold string_of_nat, NilZero.string_of_uint.
  by destruct (Nat.to_uint i).
Qed.

Lemma assoc_cons {A} k k' (v : A) r :
  assoc k ((k', v) :: r) = if String.eqb k' k then Some v else assoc k r.
Proof. reflexivity. Qed.

Lemma assoc_imap_digit {A} (g : nat → string) (l : list A) k v :
  (∀ j, Str.starts_with_digit (g j) = true) →
  assoc k (imap (fun j x => (g j, x)) l) = Some v →
  Str.starts_with_digit k = true.
Proof.
  revert g. induction l as [|x l IH]; intros g Hg; [done|].
  rewrite imap_cons, assoc_cons.
  destruct (String.eqb_spec (g 0%nat) k) as [<-|_]; [done|].
  apply (IH (g ∘ S)). intros j. apply Hg.
Qed.

Lemma assoc_indexed_digit {A} (l : list A) k v :
  assoc k (indexed l) = Some v → Str.starts_with_digit k = true.
Proof. apply assoc_imap_digit, string_of_nat_digit. Qed.

(** A property whose name does not start with a digit belongs to an
    object. *)
Lemma get_named v k x :
  get v k = Some x → Str.starts_with_digit k = false →
  ∃ fields, v = JObj fields ∧ assoc k fields = Some x.
Proof.
  unfold get. destruct v as [| | |s|l|fields]; simpl; try done.
  - intros H%assoc_indexed_digit. congruence.
  - intros H%assoc_indexed_digit. congruence.
  - eauto.
Qed.

Lemma get_truthy v k x : get v k = Some x → truthy v = true.
Proof. unfold get. by destruct v as [| | |[|c s]|l|fields]. Qed.

Lemma depth_field k x fields :
  assoc k fields = Some x → (depth x < depth (JObj fields))%nat.
Proof.
  simpl. induction fields as [|[k' y] fields IH]; simpl; [done|].
  destruct (String.eqb k' k).
  - intros [= ->]. lia.
  - intros H%IH. lia.
Qed.

Lemma depth_element x l : x ∈ l → (depth x < depth (JArr l))%nat.
Proof.
  simpl. induction 1 as [x l|x y l _ IH]; simpl; lia.
Qed.

Lemma elem_of_indexed {A} (l : list A) k x :
  (k, x) ∈ indexed l → x ∈ l.
Proof.
  unfold indexed. intros (i & y & [= -> ->] & H)%elem_of_lookup_imap.
  by eapply list_elem_of_lookup_2.
Qed.

Lemma depth_entry v k x :
  (k, x) ∈ own_entries v → (depth x ≤ pred (depth v))%nat.
Proof.
  destruct v as [| | |s|l|fields]; simpl own_entries;
    try (by intros ?%elem_of_nil).
  - intros H%elem_of_indexed. apply list_elem_of_fmap in H as (c & -> & _).
    simpl. lia.
  - intros H%elem_of_indexed%depth_element. lia.
  - intros H. cut (depth x < depth (JObj fields))%nat; [lia|].
    simpl. induction fields as [|[k' y] fields IH]; [by apply elem_of_nil in H|].
    apply elem_of_cons in H as [[= <- <-]|H]; simpl; [lia|].
    specialize (IH H). lia.
Qed.

(** ** Outcomes *)

Lemma bind_Done {A B} (a : A) log (f : A → outcome B) :
  Done a log ≫= f
  = match f a with
    | Done b log' => Done b (log ++ log')
    | Thrown => Thrown
    | Diverged => Diverged
    end.
Proof. reflexivity. Qed.

Lemma bind_ret {A B} (a : A) (f : A → outcome B) : mret a ≫= f = f a.
Proof. unfold mret, outcome_ret. rewrite bind_Done. by destruct (f a). Qed.

Lemma bind_ext {A B} (m : outcome A) (f g : A → outcome B) :
  (∀ a, f a = g a) → m ≫= f = m ≫= g.
Proof. intros H. destruct m as [a log| |]; [|done..]. by rewrite !bind_Done, H. Qed.

Lemma mapM_outcome_ext {A B} (f g : A → outcome B) l :
  (∀ x, x ∈ l → f x = g x) → mapM f l = mapM g l.
Proof.
  induction l as [|x l IH]; intros H; [done|]. simpl.
  rewrite (H x) by apply list_elem_of_here.
  apply bind_ext. intros b. rewrite IH; [done|].
  intros y Hy. apply H. by apply list_elem_of_further.
Qed.

Lemma bind_not_diverged {A B} (m : outcome A) (f : A → outcome B) :
  m ≠ Diverged → (∀ a, f a ≠ Diverged) → m ≫= f ≠ Diverged.
Proof.
  intros Hm Hf. destruct m as [a log| |]; [|done..].
  rewrite bind_Done. specialize (Hf a). by destruct (f a).
Qed.

Lemma mapM_not_diverged {A B} (f : A → outcome B) l :
  (∀ x, x ∈ l → f x ≠ Diverged) → mapM f l ≠ Diverged.
Proof.
  induction l as [|x l IH]; intros H; [done|]. simpl.
  apply bind_not_diverged; [apply H, list_elem_of_here|]. intros b.
  apply bind_not_diverged; [|done].
  apply IH. intros y Hy. apply H. by apply list_elem_of_further.
Qed.

(** ** TypeInferencer *)

Lemma isRequired_not_diverged required name :
  isRequired required name ≠ Diverged.
Proof.
  unfold isRequired. destruct required as [r|]; [|done].
  destruct (negb (truthy r)); [done|]. by destruct r.
Qed.

(** The recursive calls of [inferType] are on strictly shallower
    values. *)
Lemma inferType_ext r1 r2 schema :
  (∀ child, (depth child < depth schema)%nat → r1 child = r2 child) →
  inferType r1 schema = inferType r2 schema.
Proof.
  intros H. unfold inferType.
  destruct (negb (truthy schema)); [done|].
  destruct (is_str "array" (get schema "type")).
  - destruct (truthy_opt (get schema "items")); [|done].
    destruct (get schema "items") as [items|] eqn:Hitems; [|done].
    rewrite H; [done|].
    apply get_named in Hitems as (fields & -> & Hf); [|done].
    by eapply depth_field.
  - destruct (_ || _); [|done].
    destruct (truthy_opt (get schema "properties")); [|done].
    destruct (get schema "properties") as [p|] eqn:Hp; [|done].
    apply get_named in Hp as (fields & -> & Hf); [|done].
    apply depth_field in Hf.
    erewrite mapM_outcome_ext; [done|].
    intros [name propSchema] Hin. unfold memberType. rewrite H; [done|].
    apply depth_entry in Hin. lia.
Qed.

Lemma getTypeFromSchema_fuel_stable n m schema :
  (depth schema ≤ n)%nat → (depth schema ≤ m)%nat →
  getTypeFromSchema_fuel n schema = getTypeFromSchema_fuel m schema.
Proof.
  revert m schema. induction n as [|n IH]; intros [|m] schema Hn Hm;
    simpl; apply inferType_ext; intros child Hc; try lia.
  apply IH; lia.
Qed.

(** The fixed-point equation of [getTypeFromSchema]: the function of the
    source, recursive calls included. *)
Lemma getTypeFromSchema_unfold schema :
  getTypeFromSchema schema = inferType getTypeFromSchema schema.
Proof.
  unfold getTypeFromSchema at 1.
  destruct (depth schema) as [|n] eqn:Hd; simpl; apply inferType_ext;
    intros child Hc; [lia|].
  unfold getTypeFromSchema. apply getTypeFromSchema_fuel_stable; lia.
Qed.

Lemma inferType_not_diverged r schema :
  (∀ child, (depth child < depth schema)%nat → r child ≠ Diverged) →
  inferType r schema ≠ Diverged.
Proof.
  intros H. unfold inferType.
  destruct (negb (truthy schema)); [done|].
  destruct (is_str "array" (get schema "type")).
  - apply bind_not_diverged; [|done].
    destruct (truthy_opt (get schema "items")); [|done].
    destruct (get schema "items") as [items|] eqn:Hitems; [|done].
    apply H. apply get_named in Hitems as (fields & -> & Hf); [|done].
    by eapply depth_field.
  - destruct (_ || _); [|done].
    destruct (truthy_opt (get schema "properties")); [|done].
    apply bind_not_diverged; [|done].
    destruct (get schema "properties") as [p|] eqn:Hp; [|done].
    apply get_named in Hp as (fields & -> & Hf); [|done].
    apply depth_field in Hf.
    apply mapM_not_diverged. intros [name propSchema] Hin.
    unfold memberType. apply bind_not_diverged.
    + apply H. apply depth_entry in Hin. lia.
    + intros t. apply bind_not_diverged; [|done].
      apply isRequired_not_diverged.
Qed.

(** Type inference always returns or throws: the fuel never runs out. *)
Lemma getTypeFromSchema_not_diverged schema :
  getTypeFromSchema schema ≠ Diverged.
Proof.
  remember (depth schema) as d eqn:Hd. revert schema Hd.
  induction d as [d IH] using lt_wf_ind. intros schema ->.
  rewrite getTypeFromSchema_unfold. apply inferType_not_diverged.
  intros child Hc. by eapply IH.
Qed.

Lemma is_str_get_truthy text schema k :
  is_str text (get schema k) = true → truthy schema = true.
Proof.
  destruct (get schema k) as [v|] eqn:H; [|done]. intros _.
  by eapply get_truthy.
Qed.

Lemma getTypeFromSchema_array schema :
  is_str "array" (get schema "type") = true →
  getTypeFromSchema schema
  = itemType ← (if truthy_opt (get schema "items")
                then match get schema "items" with
                     | Some items => getTypeFromSchema items
                     | None => mret "any"
                     end
                else mret "any");
    mret ("Array<" +:+ itemType +:+ ">").
Proof.
  intros H. rewrite getTypeFromSchema_unfold. unfold inferType.
  by rewrite (is_str_get_truthy _ _ _ H), H.
Qed.

(** C4 (as amended).  The type of an array schema is [Array<T>] where [T]
    is inferred from the items schema as it stands, without resolving
    it; [T] is [any] when there are no items. *)
Theorem array_type_of_items (schema : json) :
  is_str "array" (get schema "type") = true →
  getTypeFromSchema schema
  = itemType ← (if truthy_opt (get schema "items")
                then match get schema "items" with
                     | Some items => getTypeFromSchema items
                     | None => mret "any"
                     end
                else mret "any");
    mret ("Array<" +:+ itemType +:+ ">").
Proof. apply getTypeFromSchema_array. Qed.

Lemma array_type_of_items_witness :
  getTypeFromSchema array_of_strings = Done "Array<string>" [].
Proof.
  rewrite (array_type_of_items array_of_strings); reflexivity.
Defined.

(** C4 as stated fails: the items schema is not resolved, so that items
    given by reference are typed [any] whatever they refer to. *)
Lemma array_items_not_resolved :
  getTypeFromSchema array_of_foo ≠ arrayType_spec 1 doc_foo array_of_foo.
Proof. vm_compute. discriminate. Qed.

Example array_of_foo_types :
  getTypeFromSchema array_of_foo = Done "Array<any>" []
  ∧ arrayType_spec 1 doc_foo array_of_foo = Done "Array<string>" [].
Proof. split; reflexivity. Qed.

Example infer_array_of_strings :
  getTypeFromSchema array_of_strings = Done "Array<string>" [].
Proof. reflexivity. Qed.

Example infer_object_required :
  getTypeFromSchema
    (JObj [("type", JStr "object");
           ("properties", JObj [("a", integer_schema)]);
           ("required", JArr [JStr "a"])])
  = Done "{a: number}" [].
Proof. reflexivity. Qed.

Example infer_object_optional :
  getTypeFromSchema
    (JObj [("type", JStr "object");
           ("properties", JObj [("a", integer_schema)])])
  = Done "{a?: number}" [].
Proof. reflexivity. Qed.

(** ** SchemaResolver *)

Lemma resolveSchema_reference fuel spec node pointer :
  get node "$ref" = Some (JStr pointer) → pointer ≠ EmptyString →
  resolveSchema fuel spec (Some node)
  = match walk spec (refPath_of pointer) with
    | None =>
        Done any_schema ["Could not resolve reference: " +:+ pointer]
    | Some resolved =>
        match fuel with
        | O => Diverged
        | S fuel' => resolveSchema fuel' spec (Some resolved)
        end
    end.
Proof.
  intros Href Hne.
  assert (truthy_opt (Some (JStr pointer)) = true) as Ht.
  { simpl. by destruct pointer. }
  destruct fuel; simpl; rewrite (get_truthy _ _ _ Href), Href;
    simpl negb; cbv iota; rewrite Ht; reflexivity.
Qed.

Lemma resolveSchema_falsy fuel spec node :
  truthy node = false → resolveSchema fuel spec (Some node) = Done any_schema [].
Proof. intros H. destruct fuel; simpl; by rewrite H. Qed.

(** More fuel does not change a result. *)
Lemma resolveSchema_more_fuel fuel spec schema result log :
  resolveSchema fuel spec schema = Done result log →
  resolveSchema (S fuel) spec schema = Done result log.
Proof.
  revert schema. induction fuel as [|n IH]; intros schema.
  - destruct schema as [node|]; [|done]. simpl.
    destruct (negb (truthy node)); [done|].
    destruct (truthy_opt (get node "$ref")); [|done].
    destruct (get node "$ref") as [[| | |r| |]|]; try done.
    by destruct (walk spec _).
  - destruct schema as [node|]; [|done].
    change (resolveSchema (S n) spec (Some node)) with
      (if negb (truthy node) then mret any_schema
       else if truthy_opt (get node "$ref") then
         match get node "$ref" with
         | Some (JStr r) =>
             match walk spec (Str.split "/" (remove_first "#/" r)) with
             | None =>
                 _ ← warn ("Could not resolve reference: " +:+ r);
                 mret any_schema
             | Some resolved => resolveSchema n spec (Some resolved)
             end
         | _ => Thrown
         end
       else mret node).
    change (resolveSchema (S (S n)) spec (Some node)) with
      (if negb (truthy node) then mret any_schema
       else if truthy_opt (get node "$ref") then
         match get node "$ref" with
         | Some (JStr r) =>
             match walk spec (Str.split "/" (remove_first "#/" r)) with
             | None =>
                 _ ← warn ("Could not resolve reference: " +:+ r);
                 mret any_schema
             | Some resolved => resolveSchema (S n) spec (Some resolved)
             end
         | _ => Thrown
         end
       else mret node).
    destruct (negb (truthy node)); [done|].
    destruct (truthy_opt (get node "$ref")); [|done].
    destruct (get node "$ref") as [[| | |r| |]|]; try done.
    destruct (walk spec _); [apply IH|done].
Qed.

Lemma walk_app spec before after :
  walk spec (before ++ after)
  = match walk spec before with
    | Some node => walk node after
    | None => None
    end.
Proof.
  revert spec. induction before as [|s before IH]; intros spec; [done|].
  simpl. destruct (get spec s) as [next|]; [|done].
  destruct (truthy next); [apply IH|done].
Qed.

Lemma walk_missing spec refPath :
  missing_segment spec refPath → walk spec refPath = None.
Proof.
  intros (before & segment & after & node & -> & Hwalk & Hget).
  rewrite walk_app, Hwalk. simpl. by rewrite Hget.
Qed.

Lemma refPath_components name :
  Str.includes "/" name = false →
  refPath_of ("#/components/schemas/" +:+ name)
  = ["components"; "schemas"; name].
Proof.
  intros H. unfold refPath_of.
  change (remove_first "#/" ("#/components/schemas/" +:+ name))
    with ("components" +:+ String "/" ("schemas" +:+ String "/" name)).
  rewrite split_app_separator by done.
  rewrite split_app_separator by done.
  by rewrite split_no_separator.
Qed.

Lemma walk_components spec components schemas name target :
  get spec "components" = Some components →
  get components "schemas" = Some schemas →
  get schemas name = Some target →
  walk spec ["components"; "schemas"; name]
  = if truthy target then Some target else None.
Proof.
  intros H1 H2 H3. simpl. rewrite H1, H2, H3.
  by rewrite (get_truthy _ _ _ H2), (get_truthy _ _ _ H3).
Qed.

Lemma pointer_nonempty name : "#/components/schemas/" +:+ name ≠ EmptyString.
Proof. done. Qed.

Lemma get_reference pointer : get (reference pointer) "$ref" = Some (JStr pointer).
Proof. reflexivity. Qed.

(** C6 (on the own properties of the document).  Resolving a pointer
    to [components.schemas.name] gives the schema that resolving that
    entry gives (one more reference is followed, and so one more unit of
    fuel used); and a pointer with a segment that an object of the
    document does not have, and that is not the name of a member that
    every object inherits, resolves to the "unknown" marker with one
    diagnostic, without throwing and whatever the fuel.  (At the name of
    an inherited member, [toString] say, the source finds that member
    and prints nothing.) *)
Theorem resolveSchema_reference_target :
  (∀ spec components schemas name target,
     Str.includes "/" name = false →
     get spec "components" = Some components →
     get components "schemas" = Some schemas →
     get schemas name = Some target →
     let pointer := reference ("#/components/schemas/" +:+ name) in
     (∀ fuel,
        value_of (resolveSchema (S fuel) spec (Some pointer))
        = value_of (resolveSchema fuel spec (Some target)))
     ∧ (∀ result,
          resolvesTo spec (Some pointer) result
          ↔ resolvesTo spec (Some target) result))
  ∧ (∀ spec node pointer fuel before segment after fields,
       get node "$ref" = Some (JStr pointer) →
       pointer ≠ EmptyString →
       refPath_of pointer = before ++ segment :: after →
       walk spec before = Some (JObj fields) →
       assoc segment fields = None →
       segment ∉ object_prototype_names →
       resolveSchema fuel spec (Some node)
       = Done any_schema ["Could not resolve reference: " +:+ pointer]).
Proof.
  split.
  - intros spec components schemas name target Hname H1 H2 H3 pointer.
    assert (∀ fuel,
              resolveSchema fuel spec (Some pointer)
              = if truthy target then
                  match fuel with
                  | O => Diverged
                  | S fuel' => resolveSchema fuel' spec (Some target)
                  end
                else Done any_schema
                       ["Could not resolve reference: "
                        +:+ "#/components/schemas/" +:+ name]) as Hstep.
    { intros fuel. unfold pointer.
      rewrite (resolveSchema_reference fuel spec _ _ (get_reference _)
                 (pointer_nonempty name)).
      rewrite refPath_components by done.
      rewrite (walk_components _ _ _ _ _ H1 H2 H3).
      by destruct (truthy target). }
    split.
    + intros fuel. rewrite Hstep. destruct (truthy target) eqn:Ht; [done|].
      by rewrite resolveSchema_falsy.
    + intros result. split.
      * intros (fuel & log & Hres). rewrite Hstep in Hres.
        destruct (truthy target) eqn:Ht.
        -- destruct fuel as [|fuel]; [done|]. by exists fuel, log.
        -- injection Hres as <- _. exists 0%nat, [].
           by apply resolveSchema_falsy.
      * intros (fuel & log & Hres). destruct (truthy target) eqn:Ht.
        -- exists (S fuel), log. by rewrite Hstep.
        -- rewrite resolveSchema_falsy in Hres by done.
           injection Hres as <- _.
           exists 0%nat. eexists. by rewrite Hstep.
  - intros spec node pointer fuel before segment after fields
      Href Hne Hpath Hwalk Hget _.
    rewrite (resolveSchema_reference _ _ _ _ Href Hne).
    rewrite (walk_missing spec (refPath_of pointer)); [done|].
    by exists before, segment, after, (JObj fields).
Qed.

Lemma resolveSchema_reference_target_witness :
  value_of (resolveSchema 1 doc_foo (Some (reference "#/components/schemas/Foo")))
  = value_of (resolveSchema 0 doc_foo (Some string_schema))
  ∧ resolveSchema 0 doc_foo (Some (reference "#/components/schemas/Bar"))
    = Done any_schema ["Could not resolve reference: #/components/schemas/Bar"].
Proof.
  split.
  - refine (proj1 (proj1 resolveSchema_reference_target doc_foo _ _ "Foo"
                     string_schema _ _ _ _) 0%nat); reflexivity.
  - eapply (proj2 resolveSchema_reference_target doc_foo
              (reference "#/components/schemas/Bar")
              "#/components/schemas/Bar" 0%nat ["components"; "schemas"]
              "Bar" []);
      [reflexivity|done|reflexivity|reflexivity|reflexivity|].
    by apply (bool_decide_unpack _).
Defined.

Example resolve_foo :
  resolveSchema 1 doc_foo (Some (reference "#/components/schemas/Foo"))
  = Done string_schema [].
Proof. reflexivity. Qed.

(** A reference to itself is followed for as long as there is fuel. *)
Example resolve_cycle fuel :
  resolveSchema fuel (JObj [("a", reference "#/a")]) (Some (reference "#/a"))
  = Diverged.
Proof. induction fuel as [|n IH]; [reflexivity|exact IH]. Qed.

(** What [resolveSchema] returns is the "unknown" marker, the schema it
    was given or a node of the document, as it stands there. *)
Lemma resolveSchema_result fuel spec schema result log :
  resolveSchema fuel spec schema = Done result log →
  result = any_schema ∨ schema = Some result
  ∨ ∃ refPath, walk spec refPath = Some result.
Proof.
  revert schema log. induction fuel as [|n IH]; intros schema log.
  - destruct schema as [node|]; simpl; [|intros [= <- _]; by left].
    destruct (negb (truthy node)); [intros [= <- _]; by left|].
    destruct (truthy_opt (get node "$ref")); [|intros [= <- _]; auto].
    destruct (get node "$ref") as [[| | |r| |]|]; try done.
    destruct (walk spec _); [done|]. intros [= <- _]. by left.
  - destruct schema as [node|]; [|intros [= <- _]; by left].
    change (resolveSchema (S n) spec (Some node)) with
      (if negb (truthy node) then mret any_schema
       else if truthy_opt (get node "$ref") then
         match get node "$ref" with
         | Some (JStr r) =>
             match walk spec (Str.split "/" (remove_first "#/" r)) with
             | None =>
                 _ ← warn ("Could not resolve reference: " +:+ r);
                 mret any_schema
             | Some resolved => resolveSchema n spec (Some resolved)
             end
         | _ => Thrown
         end
       else mret node).
    destruct (negb (truthy node)); [intros [= <- _]; by left|].
    destruct (truthy_opt (get node "$ref")); [|intros [= <- _]; auto].
    destruct (get node "$ref") as [[| | |r| |]|]; try done.
    destruct (walk spec _) as [resolved|] eqn:Hwalk;
      [|intros [= <- _]; by left].
    intros [H|[[= <-]|H]]%IH; eauto.
Qed.

Lemma inferType_object recur schema props :
  is_object_schema schema = true →
  get schema "properties" = Some (JObj props) →
  inferType recur schema
  = members ← mapM (memberType recur schema) props;
    mret ("{" +:+ Str.join ", " members +:+ "}").
Proof.
  unfold is_object_schema, inferType. intros [Ha Ho]%andb_true_iff Hp.
  apply negb_true_iff in Ha.
  by rewrite (get_truthy _ _ _ Hp), Ha, Ho, Hp.
Qed.

(** C10.  Type inference never follows a reference: a reference node is
    typed [any] wherever it stands below the schema that was resolved, as
    the items of an array or as a property of an object; and a resolved
    schema is a node of the document as it stands there, its nested
    references included. *)
Theorem nested_reference_is_any (pointer : string) :
  getTypeFromSchema (reference pointer) = Done "any" []
  ∧ (∀ schema,
       is_str "array" (get schema "type") = true →
       get schema "items" = Some (reference pointer) →
       getTypeFromSchema schema = Done "Array<any>" [])
  ∧ (∀ schema props,
       is_object_schema schema = true →
       get schema "properties" = Some (JObj props) →
       getTypeFromSchema schema
       = (members ← mapM (memberType getTypeFromSchema schema) props;
          mret ("{" +:+ Str.join ", " members +:+ "}"))
       ∧ ∀ name,
           memberType getTypeFromSchema schema (name, reference pointer)
           = (isRequired ← isRequired (get schema "required") name;
              mret (name +:+ (if isRequired : bool then EmptyString else "?")
                    +:+ ": any")))
  ∧ (∀ fuel spec schema result log,
       resolveSchema fuel spec schema = Done result log →
       result = any_schema ∨ schema = Some result
       ∨ ∃ refPath, walk spec refPath = Some result).
Proof.
  assert (getTypeFromSchema (reference pointer) = Done "any" []) as Href
    by reflexivity.
  split; [done|]. split; [|split].
  - intros schema Harray Hitems.
    by rewrite (getTypeFromSchema_array _ Harray), Hitems, Href.
  - intros schema props Hobject Hprops. split.
    + rewrite getTypeFromSchema_unfold. by apply inferType_object.
    + intros name. unfold memberType. rewrite Href.
      change (Done "any" []) with (mret "any" : outcome string).
      by rewrite bind_ret.
  - apply resolveSchema_result.
Qed.

Lemma nested_reference_is_any_witness :
  getTypeFromSchema array_of_foo = Done "Array<any>" []
  ∧ memberType getTypeFromSchema
      (JObj [("type", JStr "object");
             ("properties", JObj [("tag", reference "#/components/schemas/Foo")])])
      ("tag", reference "#/components/schemas/Foo")
    = Done "tag?: any" [].
Proof.
  split.
  - apply (proj1 (proj2 (nested_reference_is_any "#/components/schemas/Foo"))
             array_of_foo); reflexivity.
  - rewrite (proj2 (proj1 (proj2 (proj2
               (nested_reference_is_any "#/components/schemas/Foo")))
               (JObj [("type", JStr "object");
                      ("properties",
                       JObj [("tag", reference "#/components/schemas/Foo")])])
               [("tag", reference "#/components/schemas/Foo")]
               eq_refl eq_refl) "tag").
    reflexivity.
Defined.

(** A parameter whose schema refers to [Pet]: the reference of the
    parameter is resolved, the one inside [Pet] is not. *)
Example paramDocLine_nested_reference :
  paramDocLine 1 doc_foo
    {| param_name := "pet"; param_in := "query"; param_required := true;
       param_schema := Some (reference "#/components/schemas/Pet");
       param_description := Some "The pet" |}
  = Done (" * @param {{id: number, tag?: any}} params.pet - The pet" +:+ nl) [].
Proof. reflexivity. Qed.

(** ** The emitted text is the rendering of the plan *)

Lemma render_cons s body : render (s :: body) = render_stmt s +:+ render body.
Proof. reflexivity. Qed.

Lemma render_app a b : render (a ++ b) = render a +:+ render b.
Proof. apply emit_each_app. Qed.

Lemma render_nil : render [] = EmptyString.
Proof. reflexivity. Qed.

Lemma str_app_eq (a a' b b' : string) :
  a = a' → b = b' → a +:+ b = a' +:+ b'.
Proof. by intros -> ->. Qed.

Lemma render_fields pathParams queryParams headerParams requestBody :
  emit_each render_field
    (plan_fields pathParams queryParams headerParams requestBody)
  = emit_each (fun param =>
        "      " +:+ normalizeParamName (param_name param) +:+ "," +:+ nl)
      pathParams
    +:+ emit_each (fun param =>
          "      " +:+ normalizeParamName (param_name param)
          +:+ default_suffix (param_required param) +:+ "," +:+ nl) queryParams
    +:+ emit_each (fun param =>
          "      " +:+ normalizeParamName (param_name param)
          +:+ default_suffix (param_required param) +:+ "," +:+ nl) headerParams
    +:+ match requestBody with
        | Some body =>
            "      requestData" +:+ default_suffix (body_required body)
            +:+ "," +:+ nl
        | None => EmptyString
        end.
Proof.
  assert (∀ required, (if negb required then " = undefined" else EmptyString)
                      = default_suffix required) as Hsuffix
    by by intros [].
  unfold plan_fields. rewrite !emit_each_app, !emit_each_fmap.
  apply str_app_eq; [by apply emit_each_ext|].
  apply str_app_eq; [apply emit_each_ext; intros p; unfold render_field; simpl;
                     by rewrite Hsuffix|].
  apply str_app_eq; [apply emit_each_ext; intros p; unfold render_field; simpl;
                     by rewrite Hsuffix|].
  destruct requestBody as [body|]; [|done].
  rewrite emit_each_cons. unfold render_field. simpl.
  rewrite Hsuffix. unfold emit_each. simpl foldr.
  by rewrite str_app_nil_r.
Qed.

Lemma destructureBlock_render pathParams queryParams headerParams requestBody :
  destructureBlock pathParams queryParams headerParams requestBody
  = render
      match pathParams, queryParams, headerParams, requestBody with
      | [], [], [], None => []
      | _, _, _, _ =>
          [Destructure
             (plan_fields pathParams queryParams headerParams requestBody)]
      end.
Proof.
  assert ("    // Destructure parameters with defaults" +:+ nl
          +:+ "    const {" +:+ nl
          +:+ emit_each (fun param =>
                "      " +:+ normalizeParamName (param_name param) +:+ ","
                +:+ nl) pathParams
          +:+ emit_each (fun param =>
                "      " +:+ normalizeParamName (param_name param)
                +:+ default_suffix (param_required param) +:+ "," +:+ nl)
              queryParams
          +:+ emit_each (fun param =>
                "      " +:+ normalizeParamName (param_name param)
                +:+ default_suffix (param_required param) +:+ "," +:+ nl)
              headerParams
          +:+ match requestBody with
              | Some body =>
                  "      requestData" +:+ default_suffix (body_required body)
                  +:+ "," +:+ nl
              | None => EmptyString
              end
          +:+ "    } = params;" +:+ nl +:+ nl
          = render
              [Destructure
                 (plan_fields pathParams queryParams headerParams requestBody)])
    as H.
  { rewrite render_cons, render_nil, str_app_nil_r. unfold render_stmt.
    by rewrite render_fields, !str_app_assoc. }
  unfold destructureBlock.
  destruct pathParams, queryParams, headerParams, requestBody;
    first [exact H | reflexivity].
Qed.

Lemma urlBlock_render path :
  urlBlock path
  = render_stmt (LetUrl (Interp "BASE_URL" :: scanPath EmptyString path)).
Proof.
  unfold urlBlock, urlTemplate, render_stmt, render_template.
  rewrite emit_each_cons. fold (render_template (scanPath EmptyString path)).
  rewrite render_scanPath. simpl render_fragment.
  by rewrite !str_app_assoc.
Qed.

Lemma queryBlock_render queryParams :
  queryBlock queryParams
  = render match queryParams with
           | [] => []
           | _ => ConstQueryString :: (queryPair <$> queryParams) ++ [AppendQuery]
           end.
Proof.
  destruct queryParams as [|p queryParams]; [done|].
  unfold queryBlock. generalize (p :: queryParams) as l. intros l.
  rewrite render_cons, render_app. unfold render at 1.
  rewrite emit_each_fmap.
  rewrite (emit_each_ext (render_stmt ∘ queryPair)
             (fun param =>
                "    if (" +:+ normalizeParamName (param_name param)
                +:+ " !== undefined) {" +:+ nl
                +:+ "      queryString.push(`" +:+ param_name param
                +:+ "=${encodeURIComponent("
                +:+ normalizeParamName (param_name param) +:+ ")}`);" +:+ nl
                +:+ "    }" +:+ nl)).
  - rewrite render_cons, render_nil, str_app_nil_r. simpl render_stmt.
    by rewrite !str_app_assoc.
  - intros param. unfold queryPair. simpl. unfold render_template.
    rewrite !emit_each_cons. simpl. unfold emit_each. simpl.
    by rewrite !str_app_assoc, ?str_app_nil_r.
Qed.

Lemma headerLines_render headerParams :
  headerLines headerParams
  = emit_each render_header_field (headerField <$> headerParams).
Proof.
  unfold headerLines. rewrite emit_each_fmap. apply emit_each_ext.
  intros p. reflexivity.
Qed.

Lemma emit_each_nil {A} (f : A → string) : emit_each f [] = EmptyString.
Proof. reflexivity. Qed.

Lemma render_header_field_pair k e :
  render_header_field (k, e)
  = "        '" +:+ k +:+ "': " +:+ render_expr e +:+ "," +:+ nl.
Proof. reflexivity. Qed.

Lemma optionsBlock_render method headerParams requestBody :
  optionsBlock method headerParams requestBody
  = render_stmt (ConstOptions (plan_entries method headerParams requestBody)).
Proof.
  unfold optionsBlock, plan_entries, render_stmt.
  rewrite !headerLines_render.
  remember (headerField <$> headerParams) as fields eqn:Hfields.
  clear Hfields.
  destruct headerParams as [|p headerParams];
    destruct requestBody as [body|];
    rewrite ?emit_each_app, ?emit_each_cons, ?emit_each_nil;
    cbn -[String.append emit_each nl Str.toUpperCase primaryContentType];
    rewrite ?emit_each_cons, ?emit_each_nil;
    rewrite ?render_header_field_pair; unfold render_expr;
    rewrite ?str_app_assoc, ?str_app_nil_r, ?str_app_nil_l;
    reflexivity.
Qed.

(** The body of the emitted function is the concrete syntax of its
    plan. *)
Theorem methodBody_render path method pathParams queryParams headerParams
    requestBody :
  methodBody path method pathParams queryParams headerParams requestBody
  = render (plan path method pathParams queryParams headerParams requestBody).
Proof.
  unfold methodBody, plan. rewrite !render_app.
  rewrite <- destructureBlock_render, <- queryBlock_render.
  rewrite !render_cons, render_nil, <- urlBlock_render,
    <- optionsBlock_render.
  by rewrite ?str_app_assoc, ?str_app_nil_r.
Qed.

(** What [generateFunction] returns: the name of [functionName], and as
    code the documentation block followed by the rendering of the plan. *)
Lemma generateFunction_code fuel spec path method op baseUrl :
  generateFunction fuel spec path method op baseUrl
  = jsDoc ← generateJSDoc fuel spec op (paramsIn "path" op)
              (paramsIn "query" op) (paramsIn "header" op) (requestBody op);
    mret {| name := functionName op method path;
            code := jsDoc +:+ nl
                    +:+ render_method (functionName op method path)
                          (plan_operation path method op) |}.
Proof.
  unfold generateFunction. apply bind_ext. intros jsDoc.
  unfold render_method, plan_operation. rewrite methodBody_render.
  by rewrite ?str_app_assoc.
Qed.

(** ** The meaning of the emitted method *)

Section MeaningFacts.

Variable encodeURIComponent : option json → string.
Variable params : gmap string json.
Variable BASE_URL : string.
















(** *** The methods within the model *)

Lemma declares_queryPairs (qps : list parameter) :
  (queryPair <$> qps) ≫= declares = [].
Proof. induction qps as [|q qps IH]; [done|]. by rewrite fmap_cons, bind_cons. Qed.

Lemma declared_plan path method pathParams queryParams headerParams requestBody :
  declared (plan path method pathParams queryParams headerParams requestBody)
  = bound_names pathParams queryParams headerParams requestBody
    ++ "url" :: (match queryParams with
                 | [] => []
                 | _ => ["queryString"]
                 end ++ ["options"]).
Proof.
  unfold declared, plan, bound_names. rewrite !bind_app. f_equal.
  { destruct pathParams, queryParams, headerParams, requestBody;
      simpl; by rewrite ?app_nil_r. }
  destruct queryParams as [|q qps]; [done|].
  rewrite (bind_cons declares (LetUrl _)), (bind_cons declares ConstQueryString).
  rewrite bind_app, declares_queryPairs. reflexivity.
Qed.

Lemma plain_name_spec x :
  plain_name x = true →
  binding_identifier x = true
  ∧ (x ∉ ["params"; "url"; "queryString"; "options"])
  ∧ (x ∉ object_prototype_names).
Proof.
  unfold plain_name, binding_identifier.
  intros [Hid Hnot%negb_true_iff%bool_decide_eq_false]%andb_true_iff.
  rewrite !elem_of_app in Hnot. rewrite Hid. split; [|split].
  - apply negb_true_iff, bool_decide_eq_false. tauto.
  - intros Hin. apply Hnot. right. right. left. unfold method_names.
    repeat (apply elem_of_cons in Hin as [->|Hin];
            [repeat first [apply list_elem_of_here
                          |apply list_elem_of_further]|]).
    by apply elem_of_nil in Hin.
  - tauto.
Qed.

Lemma method_in_model_accepted path method op :
  method_in_model path method op = true →
  accepted (plan_operation path method op) = true.
Proof.
  unfold method_in_model, accepted, plan_operation.
  set (bound := bound_names _ _ _ _).
  rewrite !andb_true_iff.
  intros ((((((((_ & _) & Hnodup%bool_decide_eq_true) & Hplain) & _) & _)
            & _) & _) & _).
  rewrite declared_plan. fold bound.
  assert (∀ x, x ∈ bound →
               binding_identifier x = true
               ∧ (x ∉ ["params"; "url"; "queryString"; "options"]))
    as Hbound.
  { intros x Hx. rewrite forallb_forall in Hplain.
    destruct (plain_name_spec x) as (Hid & Hnot & _); [|done].
    by apply Hplain, list_elem_of_In. }
  set (rest := "url" :: (match paramsIn "query" op with
                         | [] => []
                         | _ => ["queryString"]
                         end ++ ["options"])).
  assert (NoDup rest ∧ forallb binding_identifier rest = true
          ∧ ("params" ∉ rest)
          ∧ ∀ x, x ∈ rest → x ∈ ["params"; "url"; "queryString"; "options"])
    as (Hrest & Hids & Hparams & Hsub).
  { unfold rest. destruct (paramsIn "query" op); simpl;
      (split; [by apply (bool_decide_unpack _)|]);
      (split; [reflexivity|]);
      (split; [by apply (bool_decide_unpack _)|]);
      intros x Hx;
      repeat (apply elem_of_cons in Hx as [->|Hx];
              [repeat first [apply list_elem_of_here
                            |apply list_elem_of_further]|]);
      by apply elem_of_nil in Hx. }
  split.
  - apply bool_decide_eq_true. rewrite app_comm_cons. apply NoDup_app.
    split; [|split; [|done]].
    + apply NoDup_cons. split; [|done].
      intros Hin. apply (Hbound _ Hin). apply list_elem_of_here.
    + intros x [->|Hx]%elem_of_cons; [done|].
      intros Hin. by apply (Hbound _ Hx), Hsub.
  - rewrite List.forallb_app, Hids, andb_true_r.
    apply forallb_forall. intros x Hx%list_elem_of_In. by apply Hbound.
Qed.



End MeaningFacts.

(** ** ModuleAssembler *)



Lemma assignment_name e : (assignment e).1 = derived_name e.
Proof. by destruct e as [[path method] op]. Qed.

Lemma mapM_Done {A B} (f : A → outcome B) l bs log :
  mapM f l = Done bs log →
  Forall2 (fun a b => ∃ log', f a = Done b log') l bs.
Proof.
  revert bs log. induction l as [|a l IH]; intros bs log.
  - intros [= <- _]. constructor.
  - simpl. destruct (f a) as [b loga| |] eqn:Ha; [|done..].
    rewrite bind_Done.
    destruct (mapM f l) as [bs' logl| |] eqn:Hl; [|done..].
    rewrite bind_Done. simpl. intros [= <- _].
    constructor; [by eexists|]. by eapply IH.
Qed.

(** The functions that the generator returns are, in order, the
    assignments of [plan_module], each after its documentation block. *)
Lemma generateFunctions_plan fuel spec baseUrl infos log :
  generateFunctions fuel spec baseUrl = Done infos log →
  Forall2 (fun e info =>
             name info = derived_name e
             ∧ ∃ jsDoc,
                 code info
                 = jsDoc +:+ nl
                   +:+ render_method (assignment e).1 (assignment e).2)
    (operations_of spec) infos.
Proof.
  intros H%mapM_Done. eapply Forall2_impl; [exact H|].
  intros [[path method] op] info [log' Hinfo]. simpl in Hinfo.
  rewrite generateFunction_code in Hinfo.
  destruct (generateJSDoc _ _ _ _ _ _ _) as [jsDoc logd| |]; [|done..].
  rewrite bind_Done in Hinfo. simpl in Hinfo. injection Hinfo as <- _.
  split; [done|]. by exists jsDoc.
Qed.

(** *** The module of a document within the model *)


Lemma generateFunction_doc fuel spec path method op baseUrl jsDoc :
  value_of (method_doc fuel spec op) = Some jsDoc →
  ∃ log,
    generateFunction fuel spec path method op baseUrl
    = Done {| name := functionName op method path;
              code := method_text jsDoc path method op |} log.
Proof.
  rewrite generateFunction_code. unfold method_doc.
  destruct (generateJSDoc _ _ _ _ _ _ _) as [doc log| |]; [|done..].
  intros [= ->]. exists (log ++ []). reflexivity.
Qed.

Lemma mapM_all_Done {A B} (f : A → outcome B) (P : A → B → Prop) l :
  (∀ x, x ∈ l → ∃ b log, f x = Done b log ∧ P x b) →
  ∃ bs log, mapM f l = Done bs log ∧ Forall2 P l bs.
Proof.
  induction l as [|x l IH]; intros H.
  - exists [], []. by split; [|constructor].
  - destruct (H x (list_elem_of_here _ _)) as (b & logb & Hb & HP).
    destruct IH as (bs & logs & Hbs & HPs).
    { intros y Hy. apply H. by apply list_elem_of_further. }
    exists (b :: bs), (logb ++ logs ++ []). split; [|by constructor].
    simpl. by rewrite Hb, bind_Done, Hbs, bind_Done.
Qed.

(** What the generator writes for a document within the model: the
    header, the methods of the operations in order, each after its
    documentation block, and the footer. *)
Lemma module_text fuel spec baseUrl :
  module_in_model fuel spec baseUrl = true →
  ∃ infos log,
    generateJavaScriptModule fuel spec baseUrl
    = Done (generateModuleHeader spec baseUrl
            +:+ Str.join (nl +:+ nl) (code <$> infos)
            +:+ module_footer) log
    ∧ Forall2 (fun (e : string * string * operation) info =>
                 let '(path, method, op) := e in
                 method_in_model path method op = true
                 ∧ ∃ jsDoc,
                     doc_comment_ok jsDoc = true
                     ∧ info = {| name := functionName op method path;
                                 code := method_text jsDoc path method op |})
        (operations_of spec) infos.
Proof.
  unfold module_in_model. intros [_ Hall]%andb_true_iff.
  rewrite forallb_forall in Hall.
  destruct (mapM_all_Done
              (fun '(path, method, op) =>
                 generateFunction fuel (doc_tree spec) path method op baseUrl)
              (fun (e : string * string * operation) info =>
                 let '(path, method, op) := e in
                 method_in_model path method op = true
                 ∧ ∃ jsDoc,
                     doc_comment_ok jsDoc = true
                     ∧ info = {| name := functionName op method path;
                                 code := method_text jsDoc path method op |})
              (operations_of spec)) as (infos & log & Hgen & Hinfos).
  { intros [[path method] op] Hin%list_elem_of_In.
    apply Hall in Hin as [Hmodel Hdoc]%andb_true_iff.
    destruct (value_of (method_doc fuel (doc_tree spec) op)) as [jsDoc|]
      eqn:HjsDoc; [|done].
    destruct (generateFunction_doc fuel (doc_tree spec) path method op baseUrl
                jsDoc HjsDoc) as [log Hfn].
    eexists _, log. split; [exact Hfn|]. split; [done|]. by exists jsDoc. }
  exists infos, (log ++ []). split; [|done].
  unfold generateJavaScriptModule, generateFunctions. rewrite Hgen.
  reflexivity.
Qed.


(** The module of a document within the model loads. *)
Lemma module_client fuel spec baseUrl :
  module_in_model fuel spec baseUrl = true →
  client_of (plan_module spec) = Some (createClient (plan_module spec)).
Proof.
  unfold module_in_model, client_of. intros [_ Hall]%andb_true_iff.
  rewrite forallb_forall in Hall.
  assert (forallb (fun m : string * list stmt => assignable m.1 && accepted m.2)
            (plan_module spec) = true) as ->; [|done].
  apply forallb_forall. unfold plan_module.
  intros m ([[path method] op] & -> & Hin)%list_elem_of_In%list_elem_of_fmap.
  apply list_elem_of_In, Hall in Hin as [Hmodel _]%andb_true_iff.
  simpl. rewrite (method_in_model_accepted _ _ _ Hmodel), andb_true_r.
  unfold method_in_model in Hmodel. rewrite !andb_true_iff in Hmodel.
  by destruct Hmodel as ((((((((Hname & _) & _) & _) & _) & _) & _) & _) & _).
Qed.


(** ** Query assembly *)




Example search_by_url_body :
  methodBody "/search" "get" [] (paramsIn "query" search_by_url) [] None
  = Str.join nl
      ["    // Destructure parameters with defaults";
       "    const {";
       "      url = undefined,";
       "    } = params;";
       EmptyString;
       "    // Construct URL with path parameters";
       "    let url = `${BASE_URL}/search`;";
       EmptyString;
       "    // Add query parameters";
       "    const queryString = [];";
       "    if (url !== undefined) {";
       "      queryString.push(`url=${encodeURIComponent(url)}`);";
       "    }";
       "    if (queryString.length > 0) {";
       "      url += `?${queryString.join('&')}`;";
       "    }";
       EmptyString;
       "    // Prepare request options";
       "    const options = {";
       "      url,";
       "      method: 'GET',";
       "    };";
       EmptyString;
       "    return request(options);";
       EmptyString].
Proof. vm_compute. reflexivity. Qed.

(** The method of [GET /moment/list], called with [{lastId: 5}]. *)
Example moment_list_call :
  call encode_plain {[ "lastId" := JNum 5 ]} "https://api.example"
    (plan_operation "/moment/list" "get" moment_list)
  = Some {| req_url := "https://api.example/moment/list?lastId=5";
            req_method := Some "GET";
            req_header := None;
            req_data := None |}.
Proof. vm_compute. reflexivity. Qed.

Example moment_list_call_both :
  req_url <$> call encode_plain {[ "lastId" := JNum 5; "size" := JNum 20 ]}
                "https://api.example"
                (plan_operation "/moment/list" "get" moment_list)
  = Some "https://api.example/moment/list?lastId=5&size=20".
Proof. vm_compute. reflexivity. Qed.

Example moment_list_call_none :
  req_url <$> call encode_plain ∅ "https://api.example"
                (plan_operation "/moment/list" "get" moment_list)
  = Some "https://api.example/moment/list".
Proof. vm_compute. reflexivity. Qed.

Example moment_list_body :
  methodBody "/moment/list" "get" [] (paramsIn "query" moment_list) [] None
  = Str.join nl
      ["    // Destructure parameters with defaults";
       "    const {";
       "      lastId = undefined,";
       "      size = undefined,";
       "    } = params;";
       EmptyString;
       "    // Construct URL with path parameters";
       "    let url = `${BASE_URL}/moment/list`;";
       EmptyString;
       "    // Add query parameters";
       "    const queryString = [];";
       "    if (lastId !== undefined) {";
       "      queryString.push(`lastId=${encodeURIComponent(lastId)}`);";
       "    }";
       "    if (size !== undefined) {";
       "      queryString.push(`size=${encodeURIComponent(size)}`);";
       "    }";
       "    if (queryString.length > 0) {";
       "      url += `?${queryString.join('&')}`;";
       "    }";
       EmptyString;
       "    // Prepare request options";
       "    const options = {";
       "      url,";
       "      method: 'GET',";
       "    };";
       EmptyString;
       "    return request(options);";
       EmptyString].
Proof. vm_compute. reflexivity. Qed.

Example moment_list_function :
  name <$> value_of (generateFunction 0 (JObj []) "/moment/list" "get"
                       moment_list EmptyString)
  = Some "getmomentList".
Proof. vm_compute. reflexivity. Qed.

(** ** Header assembly *)







Example header_parameter_replaces_content_type :
  (call encode_plain {[ "ContentType" := JStr "text/plain" ]}
     "https://api.example"
     (plan_operation "/pets" "post" (post_with_header "Content-Type"))
   ≫= req_header) ≫= (fun headers => headers !! "Content-Type")
  = Some (Some (JStr "text/plain")).
Proof. vm_compute. reflexivity. Qed.

Example post_with_header_options :
  optionsBlock "post" [header_parameter "Content-Type"] (Some json_or_xml_body)
  = Str.join nl
      [EmptyString;
       "    // Prepare request options";
       "    const options = {";
       "      url,";
       "      method: 'POST',";
       "      header: {";
       "        'Content-Type': ContentType,";
       "      },";
       "      header: {";
       "        'Content-Type': 'application/json',";
       "        'Content-Type': ContentType,";
       "      },";
       "      data: requestData,";
       "    };";
       EmptyString;
       EmptyString].
Proof. vm_compute. reflexivity. Qed.

(** A request body whose content mapping is empty: the documentation
    block reads [content['application/json'].schema] and throws. *)
Example empty_content_throws :
  generateFunction 0 (JObj []) "/pets" "post"
    {| operationId := None; summary := None; op_description := None;
       parameters := [];
       requestBody := Some {| body_required := true; body_description := None;
                              body_content := [] |};
       responses := [] |}
    EmptyString
  = Thrown.
Proof. reflexivity. Qed.



Example hyphen_document_assignment :
  ∃ infos log,
    generateFunctions 0 hyphen_document EmptyString = Done infos log
    ∧ is_substring "  client.getuser-profile = function(params = {}) {"
        (Str.join (nl +:+ nl) (code <$> infos))
      = true.
Proof. eexists _, _. split; [vm_compute; reflexivity|]. vm_compute. reflexivity. Qed.

Example colliding_names :
  name <$> default [] (value_of (generateFunctions 0 colliding_document EmptyString))
  = ["getpetsList"; "getpetsList"].
Proof. vm_compute. reflexivity. Qed.

(** * Further properties *)

(** ** NameNormalizer *)

(** X1.  Every character of a normalized name is a letter, a digit, an
    underscore or a dollar sign, whatever the name. *)
Theorem normalizeParamName_alphabet (name : string) :
  Str.forallb Char.is_word (normalizeParamName name) = true.
Proof. apply normalizeParamName_word. Qed.

Lemma map_map f g s : Str.map f (Str.map g s) = Str.map (fun c => f (g c)) s.
Proof. induction s as [|c s IH]; simpl; [done|]. by rewrite IH. Qed.

Lemma map_ext f g s : (∀ c, f c = g c) → Str.map f s = Str.map g s.
Proof. intros H. induction s as [|c s IH]; simpl; [done|]. by rewrite H, IH. Qed.

Lemma hyphens_to_underscores_hyphen s :
  Str.includes "-" (hyphens_to_underscores s) = false.
Proof.
  unfold hyphens_to_underscores. induction s as [|c s IH]; simpl; [done|].
  rewrite IH, orb_false_r. by destruct (Ascii.eqb c "-") eqn:E.
Qed.

Lemma hyphens_to_underscores_underscore s :
  Str.includes "_" (hyphens_to_underscores s)
  = Str.includes "-" s || Str.includes "_" s.
Proof.
  unfold hyphens_to_underscores. induction s as [|c s IH]; simpl; [done|].
  rewrite IH. destruct (Ascii.eqb c "-") eqn:E; simpl; [done|].
  by destruct (Ascii.eqb c "_"), (Str.includes "-" s).
Qed.

Lemma replace_invalid_hyphens s :
  replace_invalid (hyphens_to_underscores s) = replace_invalid s.
Proof.
  unfold replace_invalid, hyphens_to_underscores. rewrite map_map.
  apply map_ext. intros c. by destruct (Ascii.eqb_spec c "-") as [->|_].
Qed.

(** X2.  Hyphens and underscores are treated alike: turning the hyphens
    of a name into underscores does not change its normalized form. *)
Theorem normalizeParamName_hyphens (name : string) :
  normalizeParamName (hyphens_to_underscores name) = normalizeParamName name.
Proof.
  unfold normalizeParamName.
  rewrite replace_invalid_hyphens, hyphens_to_underscores_hyphen,
    hyphens_to_underscores_underscore.
  done.
Qed.

Lemma ident_start_word c :
  Char.is_ident_start c = true →
  Char.is_word c = true ∧ Char.is_digit c = false.
Proof. each_char c; intros; split; congruence. Qed.

Lemma identifier_word s :
  is_identifier s = true →
  Str.forallb Char.is_word s = true ∧ Str.starts_with_digit s = false.
Proof.
  destruct s as [|c s]; [done|]. simpl.
  intros [[Hw Hd]%ident_start_word Hs]%andb_true_iff.
  by rewrite Hw, Hd, Hs.
Qed.

(** X3.  A name that is already an identifier and has no underscore is
    left as it is. *)
Theorem normalizeParamName_identifier (name : string) :
  is_identifier name = true → Str.includes "_" name = false →
  normalizeParamName name = name.
Proof.
  intros [Hw Hd]%identifier_word Hu. unfold normalizeParamName.
  by rewrite (replace_invalid_fixed _ Hw), Hd, (word_no_hyphen _ Hw), Hu.
Qed.

Lemma normalizeParamName_identifier_witness :
  normalizeParamName "$userId2" = "$userId2".
Proof. apply (normalizeParamName_identifier "$userId2"); reflexivity. Defined.

Lemma map_length f s : String.length (Str.map f s) = String.length s.
Proof. induction s as [|c s IH]; simpl; [done|]. by rewrite IH. Qed.

Lemma camelCase_nonempty s : s ≠ EmptyString → camelCase s ≠ EmptyString.
Proof.
  destruct s as [|c [|d t]]; [done|done|]. intros _.
  rewrite camelCase_unfold. by destruct (_ && _).
Qed.

(** X4.  A normalized name is at most one character longer than the
    name, and is empty only for the empty name. *)
Theorem normalizeParamName_length (name : string) :
  (String.length (normalizeParamName name) <= S (String.length name))%nat
  ∧ (normalizeParamName name = EmptyString ↔ name = EmptyString).
Proof.
  split.
  - unfold normalizeParamName.
    assert (String.length
              (if Str.starts_with_digit (replace_invalid name)
               then String "_" (replace_invalid name)
               else replace_invalid name)
            <= S (String.length name))%nat as H.
    { destruct (Str.starts_with_digit _); simpl;
        unfold replace_invalid; rewrite map_length; lia. }
    destruct (_ || _); [|done].
    etransitivity; [apply camelCase_length|done].
  - split; [|by intros ->].
    destruct name as [|c name]; [done|]. intros H. exfalso. revert H.
    unfold normalizeParamName.
    assert ((if Str.starts_with_digit (replace_invalid (String c name))
             then String "_" (replace_invalid (String c name))
             else replace_invalid (String c name)) ≠ EmptyString) as H.
    { by destruct (Str.starts_with_digit _). }
    destruct (_ || _); [by apply camelCase_nonempty|done].
Qed.

(** ** SchemaResolver *)

Lemma resolveSchema_Some fuel spec node :
  resolveSchema fuel spec (Some node)
  = if negb (truthy node) then mret any_schema
    else if truthy_opt (get node "$ref") then
      match get node "$ref" with
      | Some (JStr r) =>
          match walk spec (refPath_of r) with
          | None =>
              _ ← warn ("Could not resolve reference: " +:+ r);
              mret any_schema
          | Some resolved =>
              match fuel with
              | O => Diverged
              | S fuel' => resolveSchema fuel' spec (Some resolved)
              end
          end
      | _ => Thrown
      end
    else mret node.
Proof. by destruct fuel. Qed.

(** The function returns a result exactly when the derivation exists. *)
Lemma resolveSchema_resolves fuel spec schema result log :
  resolveSchema fuel spec schema = Done result log →
  resolves spec schema result log.
Proof.
  revert schema. induction fuel as [|n IH]; intros [node|];
    try (intros [= <- <-]; constructor); rewrite resolveSchema_Some;
    destruct (truthy node) eqn:Ht; simpl;
    try (intros [= <- <-]; by constructor);
    (destruct (truthy_opt (get node "$ref")) eqn:Hr;
       [|intros [= <- <-]; by constructor]);
    (destruct (get node "$ref") as [[| | |r| |]|] eqn:Href; try done);
    (assert (r ≠ EmptyString) as Hne by (intros ->; done));
    (destruct (walk spec (refPath_of r)) as [target|] eqn:Hw;
       [|intros [= <- <-]; by constructor]); [done|].
  intros Hres%IH. by econstructor.
Qed.

Lemma resolves_resolveSchema spec schema result log :
  resolves spec schema result log →
  ∃ fuel, resolveSchema fuel spec schema = Done result log.
Proof.
  induction 1 as [|node Ht|node Ht Hr|node r Href Hne Hw
                  |node r target result log Href Hne Hw _ [fuel IH]].
  - by exists 0%nat.
  - exists 0%nat. by apply resolveSchema_falsy.
  - exists 0%nat. rewrite resolveSchema_Some. by rewrite Ht, Hr.
  - exists 0%nat. by rewrite (resolveSchema_reference _ _ _ _ Href Hne), Hw.
  - exists (S fuel).
    by rewrite (resolveSchema_reference _ _ _ _ Href Hne), Hw.
Qed.

(** X5.  A resolved schema is never itself a reference: whatever the
    document and the chain of references, what [resolveSchema] returns
    has no truthy [$ref]. *)
Theorem resolveSchema_not_reference (fuel : nat) (spec : json)
    (schema : option json) (result : json) (log : list string) :
  resolveSchema fuel spec schema = Done result log →
  truthy_opt (get result "$ref") = false.
Proof.
  intros H%resolveSchema_resolves.
  induction H as [|node Ht|node Ht Hr|node r Href Hne Hw
                  |node r target result log Href Hne Hw _ IH]; done.
Qed.

Lemma resolveSchema_not_reference_witness :
  truthy_opt (get string_schema "$ref") = false.
Proof.
  apply (resolveSchema_not_reference 1 doc_foo
           (Some (reference "#/components/schemas/Foo")) string_schema []).
  reflexivity.
Defined.

(** X6.  A resolution prints at most one diagnostic: none when it finds
    a schema, and exactly the message naming the pointer that it could
    not walk when it degrades to the "unknown" marker for that reason. *)
Theorem resolveSchema_diagnostics (fuel : nat) (spec : json)
    (schema : option json) (result : json) (log : list string) :
  resolveSchema fuel spec schema = Done result log →
  log = []
  ∨ result = any_schema
    ∧ ∃ pointer,
        log = ["Could not resolve reference: " +:+ pointer]
        ∧ walk spec (refPath_of pointer) = None.
Proof.
  intros H%resolveSchema_resolves.
  induction H as [|node Ht|node Ht Hr|node r Href Hne Hw
                  |node r target result log Href Hne Hw _ IH];
    [by left..| |done].
  right. split; [done|]. by exists r.
Qed.

Lemma resolveSchema_diagnostics_witness :
  [ "Could not resolve reference: #/components/schemas/Bar" ] = []
  ∨ any_schema = any_schema
    ∧ ∃ pointer,
        [ "Could not resolve reference: #/components/schemas/Bar" ]
        = ["Could not resolve reference: " +:+ pointer]
        ∧ walk doc_foo (refPath_of pointer) = None.
Proof.
  apply (resolveSchema_diagnostics 0 doc_foo
           (Some (reference "#/components/schemas/Bar"))).
  reflexivity.
Defined.

(** X8.  There is no guard against cycles: on a set of reference nodes
    each of which points to a node of the set, the resolution follows
    references until the fuel is used up, whatever the fuel. *)
Theorem resolveSchema_cycle (spec : json) (cyclic : json → Prop) :
  (∀ node, cyclic node →
     ∃ pointer target,
       get node "$ref" = Some (JStr pointer)
       ∧ pointer ≠ EmptyString
       ∧ walk spec (refPath_of pointer) = Some target
       ∧ cyclic target) →
  ∀ fuel node, cyclic node → resolveSchema fuel spec (Some node) = Diverged.
Proof.
  intros Hcyclic fuel. induction fuel as [|n IH]; intros node Hnode;
    destruct (Hcyclic node Hnode) as (r & target & Href & Hne & Hw & Ht);
    rewrite (resolveSchema_reference _ _ _ _ Href Hne), Hw; [done|].
  by apply IH.
Qed.

Lemma resolveSchema_cycle_witness :
  resolveSchema 100 doc_cycle (Some (reference "#/components/schemas/Node"))
  = Diverged.
Proof.
  apply (resolveSchema_cycle doc_cycle
           (fun node => node = reference "#/components/schemas/Node")
        ); [|reflexivity].
  intros node ->.
  exists "#/components/schemas/Node", (reference "#/components/schemas/Node").
  repeat split. discriminate.
Defined.

(** X9.  A truthy [$ref] that is not a string makes the resolution
    throw: the pointer is taken apart with string methods. *)
Theorem resolveSchema_ref_not_string (fuel : nat) (spec node ref : json) :
  get node "$ref" = Some ref →
  truthy ref = true →
  (∀ pointer, ref ≠ JStr pointer) →
  resolveSchema fuel spec (Some node) = Thrown.
Proof.
  intros Href Ht Hns. rewrite resolveSchema_Some.
  rewrite (get_truthy _ _ _ Href), Href. simpl. rewrite Ht.
  destruct ref; try done. by destruct (Hns s).
Qed.

Lemma resolveSchema_ref_not_string_witness :
  resolveSchema 3 doc_foo (Some (JObj [("$ref", JNum 7)])) = Thrown.
Proof.
  apply (resolveSchema_ref_not_string 3 doc_foo _ (JNum 7)); done.
Defined.

(** ** TypeInferencer *)

Lemma silent_ret {A} (a : A) : silent (mret a : outcome A).
Proof. by intros a' log [= _ <-]. Qed.

Lemma silent_bind {A B} (m : outcome A) (f : A → outcome B) :
  silent m → (∀ a, silent (f a)) → silent (m ≫= f).
Proof.
  intros Hm Hf b log. destruct m as [a loga| |]; [|done..].
  rewrite bind_Done. destruct (f a) as [b' logb| |] eqn:Hfa; [|done..].
  intros [= _ <-]. by rewrite (Hm a loga), (Hf a b' logb).
Qed.

Lemma silent_mapM {A B} (f : A → outcome B) l :
  (∀ x, x ∈ l → silent (f x)) → silent (mapM f l).
Proof.
  induction l as [|x l IH]; intros H; [apply silent_ret|]. simpl.
  apply silent_bind; [apply H, list_elem_of_here|]. intros b.
  apply silent_bind; [|intros; apply silent_ret].
  apply IH. intros y Hy. apply H. by apply list_elem_of_further.
Qed.

Lemma silent_isRequired required name : silent (isRequired required name).
Proof.
  unfold isRequired. destruct required as [r|]; [|apply silent_ret].
  destruct (negb (truthy r)); [apply silent_ret|].
  destruct r; try done; apply silent_ret.
Qed.

Lemma silent_inferType recur schema :
  (∀ child, (depth child < depth schema)%nat → silent (recur child)) →
  silent (inferType recur schema).
Proof.
  intros H. unfold inferType.
  destruct (negb (truthy schema)); [apply silent_ret|].
  destruct (is_str "array" (get schema "type")).
  - apply silent_bind; [|intros; apply silent_ret].
    destruct (truthy_opt (get schema "items")); [|apply silent_ret].
    destruct (get schema "items") as [items|] eqn:Hitems; [|apply silent_ret].
    apply H. apply get_named in Hitems as (fields & -> & Hf); [|done].
    by eapply depth_field.
  - destruct (_ || _); [|apply silent_ret].
    destruct (truthy_opt (get schema "properties")); [|apply silent_ret].
    apply silent_bind; [|intros; apply silent_ret].
    destruct (get schema "properties") as [p|] eqn:Hp; [|apply silent_ret].
    apply get_named in Hp as (fields & -> & Hf); [|done].
    apply depth_field in Hf.
    apply silent_mapM. intros [name propSchema] Hin.
    unfold memberType. apply silent_bind.
    + apply H. apply depth_entry in Hin. lia.
    + intros t. apply silent_bind; [apply silent_isRequired|].
      intros; apply silent_ret.
Qed.

Lemma silent_getTypeFromSchema schema : silent (getTypeFromSchema schema).
Proof.
  remember (depth schema) as d eqn:Hd. revert schema Hd.
  induction d as [d IH] using lt_wf_ind. intros schema ->.
  rewrite getTypeFromSchema_unfold. apply silent_inferType.
  intros child Hc. by eapply IH.
Qed.

Lemma typeMap_nonempty key : default "any" (typeMap key) ≠ EmptyString.
Proof. unfold typeMap. by repeat destruct (String.eqb key _). Qed.

Lemma bind_Done_inv {A B} (m : outcome A) (f : A → outcome B) b log :
  m ≫= f = Done b log →
  ∃ a loga logb, m = Done a loga ∧ f a = Done b logb ∧ log = loga ++ logb.
Proof.
  destruct m as [a loga| |]; [|done..]. rewrite bind_Done.
  destruct (f a) as [b' logb| |] eqn:Hfa; [|done..].
  intros [= <- <-]. by exists a, loga, logb.
Qed.

Lemma inferType_nonempty recur schema text log :
  inferType recur schema = Done text log → text ≠ EmptyString.
Proof.
  unfold inferType.
  destruct (negb (truthy schema)); [by intros [= <- _]|].
  destruct (is_str "array" (get schema "type")).
  { intros (t & ? & ? & _ & [= <- _] & _)%bind_Done_inv. done. }
  destruct (_ || _).
  - destruct (truthy_opt (get schema "properties")); [|by intros [= <- _]].
    intros (t & ? & ? & _ & [= <- _] & _)%bind_Done_inv. done.
  - intros [= <- _]. apply typeMap_nonempty.
Qed.

(** X10.  Type inference prints no diagnostic, and the type it returns
    is never the empty text. *)
Theorem getTypeFromSchema_quiet (schema : json) (text : string)
    (log : list string) :
  getTypeFromSchema schema = Done text log →
  log = [] ∧ text ≠ EmptyString.
Proof.
  intros H. split; [by eapply silent_getTypeFromSchema|].
  rewrite getTypeFromSchema_unfold in H. by eapply inferType_nonempty.
Qed.

Lemma getTypeFromSchema_quiet_witness :
  [] = ([] : list string) ∧ "Array<string>" ≠ EmptyString.
Proof.
  apply (getTypeFromSchema_quiet array_of_strings). reflexivity.
Defined.

(** X11.  Type inference ends on every schema, by returning a type or by
    throwing: the nesting depth of the schema bounds the recursion, and
    any larger bound gives the same outcome. *)
Theorem getTypeFromSchema_terminates (fuel : nat) (schema : json) :
  (depth schema <= fuel)%nat →
  getTypeFromSchema_fuel fuel schema = getTypeFromSchema schema
  ∧ getTypeFromSchema schema ≠ Diverged.
Proof.
  intros H. split; [|apply getTypeFromSchema_not_diverged].
  by apply getTypeFromSchema_fuel_stable.
Qed.

Lemma getTypeFromSchema_terminates_witness :
  getTypeFromSchema_fuel 7 array_of_foo = getTypeFromSchema array_of_foo
  ∧ getTypeFromSchema array_of_foo ≠ Diverged.
Proof.
  apply (getTypeFromSchema_terminates 7 array_of_foo). vm_compute. lia.
Defined.

(** X12.  A schema whose [type] is a string other than [array] and
    [object] is typed by the table alone: [integer] and [number] give
    [number], [string], [boolean] and [null] themselves, any other name
    [any], unless it is the name of a member that the table inherits
    ([toString], [constructor], ...); its [properties] and [items] are
    not looked at. *)
Theorem getTypeFromSchema_scalar (schema : json) (type : string) :
  get schema "type" = Some (JStr type) →
  type ≠ EmptyString → type ≠ "array" → type ≠ "object" →
  type ∉ object_prototype_names →
  getTypeFromSchema schema = Done (default "any" (typeMap type)) [].
Proof.
  intros Htype Hne Ha Ho _. rewrite getTypeFromSchema_unfold. unfold inferType.
  rewrite (get_truthy _ _ _ Htype), Htype. simpl.
  apply String.eqb_neq in Hne, Ha, Ho. by rewrite Hne, Ha, Ho.
Qed.

Lemma getTypeFromSchema_scalar_witness :
  getTypeFromSchema
    (JObj [("type", JStr "integer");
           ("properties", JObj [("x", string_schema)])])
  = Done "number" [].
Proof.
  apply (getTypeFromSchema_scalar _ "integer"); try done.
  by apply (bool_decide_unpack _).
Defined.

(** X13.  An object schema without properties (none, or a falsy value)
    is typed [object]. *)
Theorem getTypeFromSchema_bare_object (schema : json) :
  is_str "object" (get schema "type") = true →
  truthy_opt (get schema "properties") = false →
  getTypeFromSchema schema = Done "object" [].
Proof.
  intros Ho Hp. rewrite getTypeFromSchema_unfold. unfold inferType.
  rewrite (is_str_get_truthy _ _ _ Ho), Ho, Hp. simpl.
  destruct (get schema "type") as [[| | |s| |]|]; try done.
  simpl in Ho. apply String.eqb_eq in Ho as ->. done.
Qed.

Lemma getTypeFromSchema_bare_object_witness :
  getTypeFromSchema (JObj [("type", JStr "object"); ("properties", JNull)])
  = Done "object" [].
Proof. apply getTypeFromSchema_bare_object; reflexivity. Defined.

(** X14.  [required] is meant to be a list of names.  When an object
    schema with at least one property carries a truthy [required] that is
    neither an array nor a string (the [required: true] of older
    documents), inference throws. *)
Theorem getTypeFromSchema_required_not_list (schema : json) (name : string)
    (propSchema : json) (props : list (string * json)) (required : json) :
  is_object_schema schema = true →
  get schema "properties" = Some (JObj ((name, propSchema) :: props)) →
  get schema "required" = Some required →
  truthy required = true →
  (∀ names, required ≠ JArr names) →
  (∀ text, required ≠ JStr text) →
  getTypeFromSchema schema = Thrown.
Proof.
  intros Hobject Hprops Hreq Ht Harr Hstr.
  rewrite getTypeFromSchema_unfold, (inferType_object _ _ _ Hobject Hprops).
  simpl mapM. unfold memberType at 1. rewrite Hreq.
  assert (isRequired (Some required) name = Thrown) as ->.
  { unfold isRequired. rewrite Ht. simpl.
    destruct required; try done; [by destruct (Hstr s)|by destruct (Harr items)]. }
  pose proof (getTypeFromSchema_not_diverged propSchema).
  by destruct (getTypeFromSchema propSchema).
Qed.

Lemma getTypeFromSchema_required_not_list_witness :
  getTypeFromSchema required_true_schema = Thrown.
Proof.
  apply (getTypeFromSchema_required_not_list required_true_schema "id"
           integer_schema [] (JBool true)); done.
Defined.

(** ** OperationPlanner *)

Lemma map_app f a b : Str.map f (a +:+ b) = Str.map f a +:+ Str.map f b.
Proof.
  induction a as [|c a IH]; [done|]. rewrite str_app_cons. simpl.
  by rewrite IH.
Qed.

Lemma lower_brace c :
  Ascii.eqb (Char.toLowerCase c) "{" = Ascii.eqb c "{"
  ∧ Ascii.eqb (Char.toLowerCase c) "}" = Ascii.eqb c "}"
  ∧ Ascii.eqb (Char.toLowerCase c) "/" = Ascii.eqb c "/".
Proof. each_char c; done. Qed.

Lemma lower_lower c : Char.toLowerCase (Char.toLowerCase c) = Char.toLowerCase c.
Proof. each_char c; done. Qed.

Lemma upper_lower c : Char.toUpperCase (Char.toLowerCase c) = Char.toUpperCase c.
Proof. each_char c; done. Qed.

Lemma replacePlaceholders_lower s :
  (replacePlaceholders (fun name => name) (Str.toLowerCase s)
   = Str.toLowerCase (replacePlaceholders (fun name => name) s))
  ∧ ∀ acc,
      inPlaceholder (fun name => name) (Str.toLowerCase acc) (Str.toLowerCase s)
      = Str.toLowerCase (inPlaceholder (fun name => name) acc s).
Proof.
  unfold Str.toLowerCase. induction s as [|c s [IH1 IH2]]; split.
  - done.
  - done.
  - simpl. destruct (lower_brace c) as (-> & _ & _).
    destruct (Ascii.eqb c "{"); [apply (IH2 EmptyString)|].
    simpl. by rewrite IH1.
  - intros acc. simpl. destruct (lower_brace c) as (_ & -> & _).
    destruct (Ascii.eqb c "}").
    + destruct acc as [|a acc]; simpl; [by rewrite IH1|].
      rewrite IH1.
      change (String (Char.toLowerCase a) (Str.map Char.toLowerCase acc))
        with (Str.map Char.toLowerCase (String a acc)).
      by rewrite <- map_app.
    + rewrite <- IH2. by rewrite map_app.
Qed.

Lemma split_lower s :
  Str.split "/" (Str.toLowerCase s) = Str.toLowerCase <$> Str.split "/" s.
Proof.
  unfold Str.toLowerCase. induction s as [|c s IH]; [done|]. simpl.
  destruct (lower_brace c) as (_ & _ & ->).
  destruct (Ascii.eqb c "/"); [by rewrite IH|].
  rewrite IH. by destruct (Str.split "/" s).
Qed.

Lemma strip_leading_slash_lower s :
  strip_leading_slash (Str.toLowerCase s)
  = Str.toLowerCase (strip_leading_slash s).
Proof.
  destruct s as [|c s]; [done|].
  destruct c as [[] [] [] [] [] [] [] []]; reflexivity.
Qed.

Lemma camelCasePart_lower i part :
  camelCasePart i (Str.toLowerCase part) = camelCasePart i part.
Proof.
  unfold Str.toLowerCase, Str.toUpperCase.
  assert (Str.map Char.toLowerCase (Str.map Char.toLowerCase part)
          = Str.map Char.toLowerCase part) as Hll.
  { rewrite map_map. apply map_ext, lower_lower. }
  destruct i; simpl; [exact Hll|].
  destruct part as [|c t]; [done|]. simpl.
  unfold Str.toUpperCase, Str.toLowerCase. simpl.
  rewrite upper_lower, map_map.
  f_equal. apply map_ext, lower_lower.
Qed.

(** The derived name of a method and a path is that of their lower-case
    forms. *)
Lemma generateFunctionNameFromPath_lower method path :
  generateFunctionNameFromPath method path
  = generateFunctionNameFromPath (Str.toLowerCase method)
      (Str.toLowerCase path).
Proof.
  unfold generateFunctionNameFromPath.
  rewrite strip_leading_slash_lower.
  rewrite (proj1 (replacePlaceholders_lower _)), split_lower, imap_fmap.
  f_equal.
  - unfold Str.toLowerCase. rewrite map_map. symmetry.
    apply map_ext, lower_lower.
  - f_equal. apply imap_ext. intros i part _. simpl.
    symmetry. apply camelCasePart_lower.
Qed.

(** X15.  On ASCII text the derived name does not see letter case:
    methods and paths that differ only in the case of their letters
    derive the same method name (and so collide in the client). *)
Theorem generateFunctionNameFromPath_case (method method' path path' : string) :
  ascii_text method = true → ascii_text method' = true →
  ascii_text path = true → ascii_text path' = true →
  Str.toLowerCase method = Str.toLowerCase method' →
  Str.toLowerCase path = Str.toLowerCase path' →
  generateFunctionNameFromPath method path
  = generateFunctionNameFromPath method' path'.
Proof.
  intros _ _ _ _ Hm Hp.
  rewrite (generateFunctionNameFromPath_lower method path), Hm, Hp.
  symmetry. apply generateFunctionNameFromPath_lower.
Qed.

Lemma generateFunctionNameFromPath_case_witness :
  generateFunctionNameFromPath "GET" "/Pets/{petId}"
  = generateFunctionNameFromPath "get" "/pets/{PETID}".
Proof. apply generateFunctionNameFromPath_case; reflexivity. Defined.

Lemma replacePlaceholders_snoc_slash s :
  (replacePlaceholders (fun name => name) (s +:+ "/")
   = replacePlaceholders (fun name => name) s +:+ "/")
  ∧ ∀ acc,
      inPlaceholder (fun name => name) acc (s +:+ "/")
      = inPlaceholder (fun name => name) acc s +:+ "/".
Proof.
  induction s as [|c s [IH1 IH2]]; split.
  - done.
  - intros acc. rewrite str_app_nil_l. reflexivity.
  - rewrite str_app_cons. simpl. destruct (Ascii.eqb c "{"); [apply IH2|].
    by rewrite IH1.
  - intros acc. rewrite str_app_cons. simpl. destruct (Ascii.eqb c "}").
    + destruct acc as [|a acc]; rewrite IH1; [done|].
      by rewrite str_app_assoc.
    + apply IH2.
Qed.

Lemma split_snoc_slash s :
  Str.split "/" (s +:+ "/") = Str.split "/" s ++ [EmptyString].
Proof.
  induction s as [|c s IH]; [done|]. rewrite str_app_cons. simpl.
  rewrite IH. destruct (Ascii.eqb c "/"); [done|].
  pose proof (split_nonempty "/" s). by destruct (Str.split "/" s).
Qed.

Lemma join_empty_snoc parts :
  Str.join EmptyString (parts ++ [EmptyString]) = Str.join EmptyString parts.
Proof.
  induction parts as [|p [|q parts] IH]; [done| |].
  - simpl. by rewrite str_app_nil_r.
  - change (Str.join EmptyString ((p :: q :: parts) ++ [EmptyString]))
      with (p +:+ EmptyString
            +:+ Str.join EmptyString ((q :: parts) ++ [EmptyString])).
    by rewrite IH.
Qed.

Lemma camelCasePart_empty i : camelCasePart i EmptyString = EmptyString.
Proof. by destruct i. Qed.

(** X16.  A slash at the end of the path adds nothing to the derived
    name, so that a path and the same path with a trailing slash derive
    the same method name. *)
Theorem generateFunctionNameFromPath_trailing_slash (method path : string) :
  generateFunctionNameFromPath method (path +:+ "/")
  = generateFunctionNameFromPath method path.
Proof.
  unfold generateFunctionNameFromPath. f_equal.
  destruct path as [|c path]; [done|].
  assert (strip_leading_slash (String c path +:+ "/")
          = strip_leading_slash (String c path) +:+ "/") as ->.
  { rewrite str_app_cons. revert path. each_char c; done. }
  rewrite (proj1 (replacePlaceholders_snoc_slash _)), split_snoc_slash.
  rewrite imap_app. simpl. rewrite camelCasePart_empty.
  apply join_empty_snoc.
Qed.

Lemma forallb_join_empty p parts :
  Str.forallb p (Str.join EmptyString parts) = forallb (Str.forallb p) parts.
Proof.
  induction parts as [|x [|y parts] IH]; [done| |].
  - simpl. by rewrite andb_true_r.
  - rewrite join_cons2, str_app_nil_l, forallb_app, IH. done.
Qed.

Lemma forallb_word_lower s :
  Str.forallb Char.is_word (Str.toLowerCase s) = Str.forallb Char.is_word s.
Proof.
  unfold Str.toLowerCase. induction s as [|c s IH]; [done|]. simpl.
  rewrite IH. f_equal. clear. each_char c; done.
Qed.

Lemma forallb_word_capitalize s :
  Str.forallb Char.is_word (capitalize s) = Str.forallb Char.is_word s.
Proof.
  destruct s as [|c s]; [done|]. simpl. rewrite forallb_word_lower.
  f_equal. clear. each_char c; done.
Qed.

(** X17.  The derived name is not sanitized: for a method and a path
    in ASCII, it is made of identifier characters exactly when the
    method and every segment of the path are.  (Parameter names go
    through the normalizer; path segments do not.) *)
Theorem generateFunctionNameFromPath_characters (method : string)
    (g : segment) (segs : list segment) :
  forallb segment_ok (g :: segs) = true →
  ascii_text method = true →
  forallb (fun g => ascii_text (segment_text g)) (g :: segs) = true →
  Str.forallb Char.is_word
    (generateFunctionNameFromPath method (path_of_segments (g :: segs)))
  = Str.forallb Char.is_word method
    && forallb (fun g => Str.forallb Char.is_word (segment_text g)) (g :: segs).
Proof.
  intros Hok _ _. rewrite derived_name_of_segments by done.
  rewrite forallb_app, forallb_word_lower, forallb_join_empty. f_equal.
  simpl. rewrite forallb_word_lower. f_equal.
  clear. induction segs as [|x segs IH]; [done|].
  rewrite !fmap_cons. simpl. by rewrite forallb_word_capitalize, IH.
Qed.

Lemma generateFunctionNameFromPath_characters_witness :
  Str.forallb Char.is_word
    (generateFunctionNameFromPath "get"
       (path_of_segments [Literal "user-profile"; PathParam "id"]))
  = false.
Proof.
  rewrite (generateFunctionNameFromPath_characters "get"
             (Literal "user-profile") [PathParam "id"]); reflexivity.
Defined.

(** ** ModuleAssembler *)


Lemma mapM_is_Done {A B} (f : A → outcome B) l :
  is_Some (value_of (mapM f l)) ↔ ∀ x, x ∈ l → is_Some (value_of (f x)).
Proof.
  induction l as [|x l IH].
  - split; [by intros _ x ?%elem_of_nil|by eexists].
  - simpl. split.
    + intros H.
      destruct (f x) as [b logb| |] eqn:Hfx; [|by destruct H..].
      rewrite bind_Done in H.
      intros y [->|Hy]%elem_of_cons; [rewrite Hfx; by eexists|].
      apply IH; [|done].
      destruct (mapM f l) as [bs logl| |]; [by eexists|by destruct H..].
    + intros H.
      destruct (H x (list_elem_of_here _ _)) as [b Hb].
      destruct (f x) as [b' logb| |]; [|done..].
      rewrite bind_Done.
      destruct (proj2 IH) as [bs Hbs].
      { intros y Hy. apply H. by apply list_elem_of_further. }
      destruct (mapM f l) as [bs' logl| |]; [|done..].
      rewrite bind_Done. by eexists.
Qed.

(** X19.  The module is all or nothing: its text is produced exactly
    when the method of every operation is, and it then has one method
    definition for each operation, in order; one operation that throws
    (or whose references never end) leaves no module at all. *)
Theorem generateJavaScriptModule_all_or_nothing (fuel : nat) (spec : document)
    (baseUrl : string) :
  (is_Some (value_of (generateJavaScriptModule fuel spec baseUrl))
   ↔ ∀ path method op,
       (path, method, op) ∈ operations_of spec →
       is_Some (value_of
                  (generateFunction fuel (doc_tree spec) path method op baseUrl)))
  ∧ ∀ text log,
      generateJavaScriptModule fuel spec baseUrl = Done text log →
      ∃ infos,
        generateFunctions fuel spec baseUrl = Done infos log
        ∧ length infos = length (operations_of spec)
        ∧ text = generateModuleHeader spec baseUrl
                 +:+ Str.join (nl +:+ nl) (code <$> infos)
                 +:+ module_footer.
Proof.
  split.
  - unfold generateJavaScriptModule.
    transitivity (is_Some (value_of (generateFunctions fuel spec baseUrl))).
    { destruct (generateFunctions fuel spec baseUrl); simpl;
        split; intros [? ?]; try done; by eexists. }
    unfold generateFunctions. rewrite mapM_is_Done. split.
    + intros H path method op Hin. apply (H (path, method, op) Hin).
    + intros H [[path method] op] Hin. by apply H.
  - intros text log. unfold generateJavaScriptModule.
    intros (infos & loga & logb & Hgen & [= <- <-] & ->)%bind_Done_inv.
    exists infos. rewrite app_nil_r. split; [done|]. split.
    + apply generateFunctions_plan in Hgen.
      symmetry. by eapply Forall2_length.
    + reflexivity.
Qed.

Lemma createClient_snoc (methods : list (string * list stmt)) m :
  createClient (methods ++ [m]) = <[m.1 := m.2]> (createClient methods).
Proof. unfold createClient. by rewrite foldl_app. Qed.

Lemma createClient_lookup (methods : list (string * list stmt)) name :
  is_Some (createClient methods !! name) ↔ name ∈ methods.*1.
Proof.
  induction methods as [|m methods IH] using rev_ind.
  - unfold createClient. simpl. rewrite lookup_empty.
    split; [by intros [? ?]|by intros ?%elem_of_nil].
  - rewrite createClient_snoc, fmap_app, elem_of_app, lookup_insert_is_Some,
      IH.
    simpl. rewrite list_elem_of_singleton. split.
    + intros [-> | [_ ?] ]; auto.
    + intros [Hin | ->]; [|by left]. destruct (decide (m.1 = name)); auto.
Qed.

Lemma createClient_count (methods : list (string * list stmt)) :
  (size (createClient methods) <= length methods)%nat
  ∧ (size (createClient methods) = length methods ↔ NoDup methods.*1).
Proof.
  induction methods as [|m methods [IHle IHeq]] using rev_ind.
  { split; [done|]. split; [constructor|done]. }
  rewrite createClient_snoc, length_app, fmap_app. simpl.
  rewrite NoDup_app.
  destruct (createClient methods !! m.1) as [body|] eqn:Hm.
  - rewrite map_size_insert_Some by done. split; [lia|]. split; [lia|].
    intros (_ & Hdisjoint & _). exfalso.
    apply (Hdisjoint m.1); [|apply list_elem_of_here].
    apply createClient_lookup. by eexists.
  - rewrite map_size_insert_None by done.
    split; [lia|]. split.
    + intros Hsize. split; [apply IHeq; lia|]. split; [|apply NoDup_singleton].
      intros name Hin ->%list_elem_of_singleton.
      apply createClient_lookup in Hin as [? ?]. congruence.
    + intros (Hnodup & _ & _). apply IHeq in Hnodup. lia.
Qed.

Lemma plan_module_names spec :
  (plan_module spec).*1 = derived_name <$> operations_of spec.
Proof.
  unfold plan_module. rewrite <- list_fmap_compose.
  apply list_fmap_ext. intros i e _. apply assignment_name.
Qed.

(** X20.  For a document within the model, the module loads and the
    own properties of its client object are methods under exactly the
    names that the operations derive.  There is at most one method per
    operation, and one method for each operation exactly when the
    derived names are pairwise distinct: no check is made, and of the
    operations that derive one name only one has a method. *)
Theorem createClient_size (fuel : nat) (spec : document) (baseUrl : string) :
  module_in_model fuel spec baseUrl = true →
  ∃ infos log client,
    generateJavaScriptModule fuel spec baseUrl
    = Done (generateModuleHeader spec baseUrl
            +:+ Str.join (nl +:+ nl) (code <$> infos)
            +:+ module_footer) log
    ∧ Forall2 (fun e info =>
                 ∃ jsDoc,
                   doc_comment_ok jsDoc = true
                   ∧ code info
                     = jsDoc +:+ nl
                       +:+ render_method (derived_name e) (assignment e).2)
        (operations_of spec) infos
    ∧ client_of (plan_module spec) = Some client
    ∧ (∀ name, is_Some (client !! name)
               ↔ name ∈ derived_name <$> operations_of spec)
    ∧ (size client <= length (operations_of spec))%nat
    ∧ (size client = length (operations_of spec)
       ↔ NoDup (derived_name <$> operations_of spec)).
Proof.
  intros Hmodel.
  destruct (module_text _ _ _ Hmodel) as (infos & log & Htext & Hinfos).
  exists infos, log, (createClient (plan_module spec)).
  split; [exact Htext|]. split; [|split; [by eapply module_client|]].
  - eapply Forall2_impl; [exact Hinfos|].
    intros [[path method] op] info (_ & jsDoc & Hdoc & ->).
    by exists jsDoc.
  - rewrite <- plan_module_names.
    replace (length (operations_of spec)) with (length (plan_module spec))
      by (unfold plan_module; apply length_fmap).
    split; [intros name; apply createClient_lookup|apply createClient_count].
Qed.

Lemma createClient_size_witness :
  ∃ client,
    client_of (plan_module colliding_document) = Some client
    ∧ (size client <= length (operations_of colliding_document))%nat.
Proof.
  destruct (createClient_size 0 colliding_document EmptyString)
    as (infos & log & client & _ & _ & Hclient & _ & Hsize & _).
  - reflexivity.
  - by exists client.
Defined.

Lemma bind_value_None {A B} (m : outcome A) (f : A → outcome B) :
  value_of m = None ∨ (∀ a, value_of (f a) = None) →
  value_of (m ≫= f) = None.
Proof.
  destruct m as [a log| |]; intros [H|H]; try done.
  rewrite bind_Done. specialize (H a). by destruct (f a).
Qed.

Lemma generateJSDoc_empty_content fuel spec op pathParams queryParams
    headerParams :
  (∃ body, requestBody op = Some body ∧ body_content body = [])
  ∨ (∃ successResponse,
       assoc "200" (responses op) = Some successResponse
       ∧ resp_content successResponse = Some []) →
  value_of (generateJSDoc fuel spec op pathParams queryParams headerParams
              (requestBody op))
  = None.
Proof.
  intros H. unfold generateJSDoc.
  apply bind_value_None. right. intros paramLines.
  apply bind_value_None.
  destruct H as [(body & -> & Hcontent)|(successResponse & Hok & Hcontent)].
  - left. unfold bodyDocLine. by rewrite Hcontent.
  - right. intros bodyLine. apply bind_value_None. left.
    unfold returnDocLine. by rewrite Hok, Hcontent.
Qed.

(** X21.  A request body and a [200] response that has a [content] have
    to declare a content type.  For an operation whose request body or
    whose [200] response has an empty [content] object, the
    documentation block reads the schema of a missing entry and throws:
    no method is generated, and a document that has such an operation
    gives no module. *)
Theorem generateFunction_empty_content (fuel : nat) (spec : document)
    (path method : string) (op : operation) (baseUrl : string) :
  (∃ body, requestBody op = Some body ∧ body_content body = [])
  ∨ (∃ successResponse,
       assoc "200" (responses op) = Some successResponse
       ∧ resp_content successResponse = Some []) →
  value_of (generateFunction fuel (doc_tree spec) path method op baseUrl) = None
  ∧ ((path, method, op) ∈ operations_of spec →
     value_of (generateJavaScriptModule fuel spec baseUrl) = None).
Proof.
  intros Hcontent.
  assert (value_of (generateFunction fuel (doc_tree spec) path method op baseUrl)
          = None) as Hnone.
  { rewrite generateFunction_code. apply bind_value_None. left.
    by apply generateJSDoc_empty_content. }
  split; [done|]. intros Hin.
  unfold generateJavaScriptModule. apply bind_value_None. left.
  destruct (value_of (generateFunctions fuel spec baseUrl)) as [infos|] eqn:Hgen;
    [|done].
  exfalso.
  assert (is_Some (value_of (generateFunctions fuel spec baseUrl))) as Hsome
    by (rewrite Hgen; by eexists).
  unfold generateFunctions in Hsome. rewrite mapM_is_Done in Hsome.
  specialize (Hsome (path, method, op) Hin). simpl in Hsome.
  rewrite Hnone in Hsome. by destruct Hsome.
Qed.

Lemma generateFunction_empty_content_witness :
  value_of (generateFunction 1 (doc_tree empty_content_document) "/pets" "post"
              empty_body_operation EmptyString)
  = None
  ∧ value_of (generateFunction 1 (doc_tree empty_content_document) "/pets" "get"
                empty_response_operation EmptyString)
    = None
  ∧ value_of (generateJavaScriptModule 1 empty_content_document EmptyString)
    = None.
Proof.
  split; [|split].
  - apply (generateFunction_empty_content 1 empty_content_document).
    left. by eexists.
  - apply (generateFunction_empty_content 1 empty_content_document).
    right. by eexists.
  - apply (generateFunction_empty_content 1 empty_content_document "/pets"
             "post" empty_body_operation EmptyString).
    + left. by eexists.
    + vm_compute. apply list_elem_of_here.
Defined.

(** ** The emitted method: the path *)










(** ** FunctionSynthesizer: parameters and diagnostics *)

Lemma paramsIn_filter (location location' : string) (l : list parameter) :
  filter (fun p => param_in p = location)
    (filter (fun p => param_in p = location') l)
  = if decide (location = location')
    then filter (fun p => param_in p = location) l
    else [].
Proof.
  induction l as [|p l IH]; [by destruct (decide _)|].
  rewrite (filter_cons (fun p => param_in p = location')).
  rewrite (filter_cons (fun p => param_in p = location) p l).
  destruct (decide (param_in p = location')) as [Hp|Hp].
  - rewrite filter_cons, IH.
    destruct (decide (location = location')) as [->|Hne].
    + by rewrite !decide_True by done.
    + rewrite decide_False; [done|congruence].
  - rewrite IH. destruct (decide (location = location')) as [->|Hne]; [|done].
    by rewrite decide_False by done.
Qed.

Lemma paramsIn_regrouped location op :
  location ∈ ["path"; "query"; "header"] →
  paramsIn location (regrouped op) = paramsIn location op.
Proof.
  intros Hin. unfold paramsIn at 1. simpl parameters. unfold paramsIn.
  rewrite !filter_app, !paramsIn_filter.
  repeat (apply elem_of_cons in Hin as [->|Hin];
          [simpl; by rewrite ?app_nil_r|]).
  by apply elem_of_nil in Hin.
Qed.

(** X24.  Only the parameters whose [in] is [path], [query] or [header]
    count, and only their order within each kind: leaving out the others
    (a [cookie] parameter, say) and listing the three kinds one after
    the other changes neither the name nor one character of the method
    and its documentation. *)
Theorem generateFunction_regrouped (fuel : nat) (spec : json)
    (path method : string) (op : operation) (baseUrl : string) :
  generateFunction fuel spec path method (regrouped op) baseUrl
  = generateFunction fuel spec path method op baseUrl.
Proof.
  unfold generateFunction.
  rewrite !paramsIn_regrouped
    by (repeat first [apply list_elem_of_here|apply list_elem_of_further]).
  reflexivity.
Qed.

Lemma warns_ret {A} (a : A) : warns_at_most 0 (mret a : outcome A).
Proof. by split. Qed.

Lemma warns_mono {A} n k (m : outcome A) :
  (n <= k)%nat → warns_at_most n m → warns_at_most k m.
Proof. intros Hle [? ?]. split; [done|lia]. Qed.

Lemma warns_silent {A} (m : outcome A) : silent m → warns_at_most 0 m.
Proof.
  intros H. destruct m as [a log| |]; [|by split..].
  rewrite (H a log eq_refl). by split.
Qed.

Lemma warns_bind {A B} n k (m : outcome A) (f : A → outcome B) :
  warns_at_most n m → (∀ a, warns_at_most k (f a)) →
  warns_at_most (n + k) (m ≫= f).
Proof.
  intros [Hm Hn] Hf. destruct m as [a log| |]; [|by split; [|simpl; lia]..].
  rewrite bind_Done. destruct (Hf a) as [Hfa Hk].
  destruct (f a) as [b log'| |]; [|by split; [|simpl; lia]..].
  unfold warns_at_most. simpl in *. split.
  - by rewrite List.forallb_app, Hm, Hfa.
  - rewrite length_app. lia.
Qed.

Lemma warns_mapM {A B} (f : A → outcome B) l :
  (∀ x, warns_at_most 1 (f x)) → warns_at_most (length l) (mapM f l).
Proof.
  intros Hf. induction l as [|x l IH]; [apply warns_ret|]. simpl mapM.
  apply (warns_mono (1 + (length l + 0))); [simpl; lia|].
  apply warns_bind; [apply Hf|]. intros b.
  apply warns_bind; [apply IH|]. intros bs. apply warns_ret.
Qed.

Lemma warns_resolveSchema fuel spec schema :
  warns_at_most 1 (resolveSchema fuel spec schema).
Proof.
  destruct (resolveSchema fuel spec schema) as [result log| |] eqn:H;
    [|by split; [|simpl; lia]..].
  apply resolveSchema_resolves in H.
  induction H as [|node Ht|node Ht Hr|node r Href Hne Hw
                  |node r target result log Href Hne Hw _ IH];
    [by split; [|simpl; lia]..|exact IH].
Qed.

Lemma warns_typed fuel spec schema (line : string → string) :
  warns_at_most 1
    (resolved ← resolveSchema fuel spec schema;
     type ← getTypeFromSchema resolved;
     mret (line type)).
Proof.
  apply (warns_mono (1 + (0 + 0))); [lia|].
  apply warns_bind; [apply warns_resolveSchema|]. intros resolved.
  apply warns_bind; [apply warns_silent, silent_getTypeFromSchema|].
  intros type. apply warns_ret.
Qed.

Lemma warns_generateJSDoc fuel spec op pathParams queryParams headerParams
    requestBody :
  warns_at_most (length (pathParams ++ queryParams ++ headerParams) + 2)
    (generateJSDoc fuel spec op pathParams queryParams headerParams
       requestBody).
Proof.
  unfold generateJSDoc.
  apply (warns_mono (length (pathParams ++ queryParams ++ headerParams)
                     + (1 + (1 + 0)))); [lia|].
  apply warns_bind.
  { apply warns_mapM. intros param. apply warns_typed. }
  intros paramLines. apply warns_bind.
  { destruct requestBody as [body|];
      [|apply (warns_mono 0); [lia|apply warns_ret]].
    unfold bodyDocLine.
    destruct (assoc _ _) as [media|]; [apply warns_typed|].
    by split; [|simpl; lia]. }
  intros bodyLine. apply warns_bind; [|intros; apply warns_ret].
  unfold returnDocLine.
  destruct (assoc "200" (responses op)) as [successResponse|];
    [|apply (warns_mono 0); [lia|apply warns_ret]].
  destruct (resp_content successResponse) as [content|];
    [|apply (warns_mono 0); [lia|apply warns_ret]].
  destruct (assoc _ content) as [media|]; [|by split; [|simpl; lia]].
  destruct (truthy_opt (media_schema media));
    [apply warns_typed|apply (warns_mono 0); [lia|apply warns_ret]].
Qed.

(** X25.  All that the generation of a method prints are diagnostics of
    references that could not be resolved, and at most one for each
    schema that it resolves: one for each path, query and header
    parameter, one for the request body and one for the [200]
    response. *)
Theorem generateFunction_diagnostics (fuel : nat) (spec : json)
    (path method : string) (op : operation) (baseUrl : string) :
  forallb is_reference_warning
    (log_of (generateFunction fuel spec path method op baseUrl))
  = true
  ∧ (length (log_of (generateFunction fuel spec path method op baseUrl))
     <= length (paramsIn "path" op ++ paramsIn "query" op
                ++ paramsIn "header" op) + 2)%nat.
Proof.
  rewrite generateFunction_code.
  eapply warns_mono;
    [|apply warns_bind; [apply warns_generateJSDoc|intros; apply warns_ret]].
  lia.
Qed.

(** ** The driver *)

Lemma strip_prefix_app prefix s rest :
  strip_prefix prefix s = Some rest → s = prefix +:+ rest.
Proof.
  revert s. induction prefix as [|a prefix IH]; intros s; simpl.
  - by intros [= ->].
  - destruct s as [|b s]; [done|].
    destruct (Ascii.eqb_spec a b) as [->|Hne]; [|done].
    intros H%IH. by rewrite H.
Qed.

(** X26.  Nothing is generated unless the document declares a version
    that is a string beginning with [3.0]: a document of another major or
    minor version, one without [openapi], and one whose [openapi] is a
    number all end in the error branch. *)
Theorem convertOpenApiToWxRequest_version (fuel : nat)
    (optionBaseUrl : option string) (spec : document) (text : string)
    (log : list string) :
  convertOpenApiToWxRequest fuel optionBaseUrl spec = Done text log →
  ∃ rest, get (doc_tree spec) "openapi" = Some (JStr ("3.0" +:+ rest)).
Proof.
  unfold convertOpenApiToWxRequest, versionSupported, startsWith.
  destruct (get (doc_tree spec) "openapi") as [[| | |v| |]|]; try done.
  destruct (strip_prefix "3.0" v) as [rest|] eqn:Hv; [|done].
  intros _. exists rest. by rewrite (strip_prefix_app _ _ _ Hv).
Qed.

Lemma convertOpenApiToWxRequest_version_witness :
  ∃ rest, get (doc_tree two_servers) "openapi" = Some (JStr ("3.0" +:+ rest)).
Proof.
  eapply (convertOpenApiToWxRequest_version 0 None two_servers).
  vm_compute. reflexivity.
Defined.

(** X27.  The base URL written into the module is the [--base-url]
    option when it is given and not empty, whatever the document says;
    without it (or with an empty one) it is the [url] of the first
    server of the document, later servers being ignored; and it is empty
    when the document has no [servers]. *)
Theorem convertOpenApiToWxRequest_base_url (fuel : nat) (spec : document) :
  versionSupported (doc_tree spec) = true →
  (∀ url, url ≠ EmptyString →
     convertOpenApiToWxRequest fuel (Some url) spec
     = generateJavaScriptModule fuel spec url)
  ∧ convertOpenApiToWxRequest fuel (Some EmptyString) spec
    = convertOpenApiToWxRequest fuel None spec
  ∧ (∀ server others url,
       get (doc_tree spec) "servers" = Some (JArr (server :: others)) →
       get server "url" = Some (JStr url) →
       convertOpenApiToWxRequest fuel None spec
       = generateJavaScriptModule fuel spec url)
  ∧ (get (doc_tree spec) "servers" = None →
     convertOpenApiToWxRequest fuel None spec
     = generateJavaScriptModule fuel spec EmptyString).
Proof.
  intros Hv. unfold convertOpenApiToWxRequest. rewrite Hv. simpl.
  repeat split.
  - intros url Hne. unfold chooseBaseUrl, js_or. simpl.
    by destruct url.
  - intros server others url Hservers Hurl.
    unfold chooseBaseUrl, js_or, firstServerUrl. rewrite Hservers. simpl.
    change (get (JArr (server :: others)) "0") with (Some server).
    rewrite (get_truthy _ _ _ Hurl). simpl. rewrite Hurl. simpl.
    by destruct url.
  - intros Hservers. unfold chooseBaseUrl, js_or, firstServerUrl.
    by rewrite Hservers.
Qed.

Lemma convertOpenApiToWxRequest_base_url_witness :
  convertOpenApiToWxRequest 0 (Some "https://cli.test") two_servers
  = generateJavaScriptModule 0 two_servers "https://cli.test"
  ∧ convertOpenApiToWxRequest 0 None two_servers
    = generateJavaScriptModule 0 two_servers "https://a.test".
Proof.
  destruct (convertOpenApiToWxRequest_base_url 0 two_servers eq_refl)
    as (Hoption & _ & Hserver & _).
  split.
  - apply Hoption. discriminate.
  - eapply Hserver; reflexivity.
Defined.
